(** * Lucas-Kanade track manager: a shallow embedding of
      [assets/optical_flow_tracker.py]

    The script keeps a list of tracks.  Every track is a Python list of
    [(x, y)] tuples of [numpy.float32] coordinates; the track objects are
    mutated in place ([append], [del track[0]]) and shared between the old
    and the new value of [self.tracks].  The embedding therefore keeps an
    explicit store of list objects and lets [tracks] hold references.

    OpenCV and numpy are not part of the repository: the optical-flow
    estimator, the corner detector, the colour conversion and the drawing
    primitives are the fields of an interface, so every statement holds
    for any behaviour of these routines, and examples instantiate them.
    The only law of the interface is that the flow estimator, given at
    least one point, returns one row per input point.

    A Python exception is rendered as [None].  The picture drawn on [vis]
    is shown by [imshow] and read by nothing, so it is not modelled; what
    is modelled of the two drawing calls of [update_tracks] is whether
    they raise, which depends on the OpenCV binding: some accept the
    [numpy.float32] centre handed to [cv2.circle], others require
    integers. *)

From Stdlib Require Import ZArith Lia.
From Stdlib Require SpecFloat.
From stdpp Require Import base option list.

Local Open Scope Z_scope.

(** ** IEEE binary32 coordinates *)

Module F32.

Definition prec : Z := 24.
Definition emax : Z := 128.

Abbreviation t := SpecFloat.spec_float (only parsing).

(** The float32 nearest to the integer [z]. *)
Definition of_Z (z : Z) : t := SpecFloat.binary_normalize prec emax z 0 false.

Definition one : t := SpecFloat.SFone prec emax.
Definition sub (a b : t) : t := SpecFloat.SFsub prec emax a b.
Definition add (a b : t) : t := SpecFloat.SFadd prec emax a b.
Definition mul (a b : t) : t := SpecFloat.SFmul prec emax a b.
Definition abs (a : t) : t := SpecFloat.SFabs a.
Definition ltb (a b : t) : bool := SpecFloat.SFltb a b.
Definition leb (a b : t) : bool := SpecFloat.SFleb a b.

Definition is_nan (a : t) : bool :=
  match a with SpecFloat.S754_nan => true | _ => false end.

(** Zeros and finite numbers, as opposed to infinities and NaN. *)
Definition is_finite (a : t) : bool :=
  match a with
  | SpecFloat.S754_zero _ | SpecFloat.S754_finite _ _ _ => true
  | _ => false
  end.

(** The binary step of numpy's [max] reduction: the first operand wins
    when it is a NaN or at least the second. *)
Definition max (a b : t) : t := if leb b a || is_nan a then a else b.

Definition INT_MIN : Z := - 2 ^ 31.
Definition INT_MAX : Z := 2 ^ 31 - 1.

(** [numpy.int32] of a float32 taken from a tuple: truncation toward
    zero.  The conversion raises on NaN ([ValueError]), on infinities and
    on values outside the int32 range ([OverflowError]). *)
Definition to_int32 (a : t) : option Z :=
  match a with
  | SpecFloat.S754_zero _ => Some 0
  | SpecFloat.S754_finite s m e =>
      let v := if 0 <=? e then Z.shiftl (Z.pos m) e
               else Z.shiftr (Z.pos m) (- e) in
      let z := if s then - v else v in
      if (INT_MIN <=? z) && (z <=? INT_MAX) then Some z else None
  | _ => None
  end.

(** The integer [z] is the number [a] rounded toward zero: [a] is the
    fraction [n / d] up to its sign, [|z| <= n / d < |z| + 1], and [z]
    has the sign of [a] or is zero. *)
Definition is_truncation (a : t) (z : Z) : Prop :=
  match a with
  | SpecFloat.S754_zero _ => z = 0
  | SpecFloat.S754_finite s m e =>
      let n := Z.pos m * 2 ^ Z.max e 0 in
      let d := 2 ^ Z.max (- e) 0 in
      (Z.abs z * d <= n < (Z.abs z + 1) * d) /\
      (if s then z <= 0 else 0 <= z)
  | _ => False
  end.

End F32.

(** ** Data *)

(** A point is a tuple [(x, y)] of float32 values. *)
Abbreviation Point := (F32.t * F32.t)%type (only parsing).

(** A track is a Python list of points, oldest first. *)
Abbreviation Track := (list Point) (only parsing).

(** A reference to a track object: an index into the store. *)
Abbreviation loc := nat (only parsing).

(** [LK_PARAMS]: window size, pyramid depth and termination criteria
    [(TERM_CRITERIA_EPS | TERM_CRITERIA_COUNT, 10, 0.03)]. *)
Record LKParams := {
  winSize : Z * Z;
  maxLevel : Z;
  criteria : Z * Z * SpecFloat.spec_float
}.

Definition TERM_CRITERIA_COUNT : Z := 1.
Definition TERM_CRITERIA_EPS : Z := 2.

Definition LK_PARAMS : LKParams := {|
  winSize := (15, 15);
  maxLevel := 2;
  criteria := (Z.lor TERM_CRITERIA_EPS TERM_CRITERIA_COUNT, 10,
               (* the binary64 value of 0.03 *)
               SpecFloat.S754_finite false 8646911284551352 (-58))
|}.

(** [FEATURE_PARAMS]. *)
Record FeatureParams := {
  maxCorners : Z;
  qualityLevel : SpecFloat.spec_float;
  minDistance : Z;
  blockSize : Z
}.

Definition FEATURE_PARAMS : FeatureParams := {|
  maxCorners := 500;
  (* the binary64 value of 0.3 *)
  qualityLevel := SpecFloat.S754_finite false 5404319552844595 (-54);
  minDistance := 7;
  blockSize := 7
|}.

(** ** List operations of the script *)

(** [abs(points_pld - points_old_inferred).reshape(-1, 2).max(-1)] for one
    row: the larger of the two per-axis absolute differences. *)
Definition error_term_of (p_old p_inferred : Point) : F32.t :=
  F32.max (F32.abs (F32.sub (fst p_old) (fst p_inferred)))
          (F32.abs (F32.sub (snd p_old) (snd p_inferred))).

(** [error_term < 1] for one row. *)
Definition below_threshold (e : F32.t) : bool := F32.ltb e F32.one.

(** [track.append((x, y))] followed by
    [if len(track) > self.track_len: del track[0]]. *)
Definition append_trim (track_len : Z) (track : Track) (p : Point) : Track :=
  let track1 := track ++ [p] in
  if bool_decide (track_len < Z.of_nat (length track1)) then drop 1 track1
  else track1.

(** [np.int32(track[-1])] for a point; it raises when a coordinate
    cannot be converted. *)
Definition np_int32 (p : Point) : option (Z * Z) :=
  x ← F32.to_int32 (fst p); y ← F32.to_int32 (snd p); Some (x, y).

(** The store of track objects; [track[-1]] through a reference.  An empty
    track raises [IndexError], rendered as [None]. *)
Definition latest (h : list Track) (l : loc) : option Point :=
  track ← h !! l; last track.

(** The body of the [for] loop of [update_tracks] (lines 84-99) over the
    zipped rows, threading the store and [new_tracks].  [accepts xy] tells
    whether [cv2.circle(vis, (x, y), 2, (0, 255, 0), -1)] returns; when it
    raises, the loop is left after the track has been extended. *)
Fixpoint update_loop (accepts : Point → bool) (track_len : Z)
    (rows : list (loc * Point * bool))
    (h : list Track) (new_tracks : list loc)
    : option (list Track * list loc) :=
  match rows with
  | [] => Some (h, new_tracks)
  | (l, xy, good_flag) :: rows' =>
      if negb good_flag then update_loop accepts track_len rows' h new_tracks
      else
        track ← h !! l;
        if accepts xy
        then update_loop accepts track_len rows'
               (<[l := append_trim track_len track xy]> h) (new_tracks ++ [l])
        else None
  end.

(** ** The library routines

    Images are numpy arrays; the script only hands them to OpenCV and
    numpy.  The routines it calls form an interface. *)
Class CV (image : Type) := {
  (** [cv2.cvtColor(frame, cv2.COLOR_BGR2GRAY)] *)
  cvtColor : image → image;
  (** [cv2.calcOpticalFlowPyrLK(prev, next, points, None, **params)] on
      at least one point: next points, status flags and residuals.  On
      zero points the routine returns [(None, None, None)]; that case is
      handled where the routine is called *)
  calcOpticalFlowPyrLK :
    image → image → list Point → LKParams →
    list Point * list bool * list F32.t;
  (** given at least one point, the array of next points has one row per
      input point, so that the element-wise numpy operations on the two
      arrays pair their rows *)
  calcOpticalFlowPyrLK_rows :
    ∀ prev next pts prm,
      pts ≠ [] →
      length (calcOpticalFlowPyrLK prev next pts prm).1.1 = length pts;
  (** [np.zeros_like] and the slice assignment [mask[:] = v] *)
  zeros_like : image → image;
  fill : image → Z → image;
  (** [cv2.circle(img, center, radius, color, thickness)] *)
  circle : image → Z * Z → Z → Z → Z → image;
  (** [cv2.goodFeaturesToTrack(frame, mask=mask, **params)]; [None] when
      no corner is found *)
  goodFeaturesToTrack : image → image → FeatureParams → option (list Point);
  (** whether [cv2.circle(vis, center, radius, color, thickness)] returns
      for a centre given as a pair of [numpy.float32] and a BGR colour;
      bindings that require integer coordinates raise *)
  circle_accepts : Point → Z → Z * Z * Z → Z → bool;
  (** whether [cv2.polylines(vis, pts, isClosed, color)] returns for a
      list of int32 arrays *)
  polylines_accepts : list (list (Z * Z)) → bool → Z * Z * Z → bool
}.

(** ** The tracker object

    [prev_gray] is first assigned at the end of the first loop iteration;
    [cam] belongs to the driver.  [heap] is the store of track objects. *)
Record Tracker (image : Type) := mkTracker {
  track_len : Z;
  detect_interval : Z;
  tracks : list loc;
  frame_idx : Z;
  prev_gray : option image;
  heap : list Track
}.

Arguments mkTracker {image}.
Arguments track_len {image}.
Arguments detect_interval {image}.
Arguments tracks {image}.
Arguments frame_idx {image}.
Arguments prev_gray {image}.
Arguments heap {image}.

Section Tracker.

Context {image : Type} {cv : CV image}.

(** [Tracker.__init__]. *)
Definition init : Tracker image := {|
  track_len := 10;
  detect_interval := 5;
  tracks := [];
  frame_idx := 0;
  prev_gray := None;
  heap := []
|}.

(** The source points of [update_tracks] (lines 67-68): the latest point
    of every live track. *)
Definition latest_points (self : Tracker image) : option (list Point) :=
  mapM (latest (heap self)) (tracks self).

(** Lines 70-81 of [update_tracks]: forward flow, backward flow and the
    comparison of the old points with the inferred old points.  Both
    status arrays [_st] and both residual arrays [_err] are discarded. *)
Definition back_tracking (img_old img_new : image) (points_pld : list Point)
    : list Point * list bool :=
  let '(points_new, _st, _err) :=
    calcOpticalFlowPyrLK img_old img_new points_pld LK_PARAMS in
  let '(points_old_inferred, _st, _err) :=
    calcOpticalFlowPyrLK img_new img_old points_new LK_PARAMS in
  let error_term := zip_with error_term_of points_pld points_old_inferred in
  let point_valid := below_threshold <$> error_term in
  (points_new, point_valid).

(** [[np.int32(track) for track in self.tracks]] (line 104), on the
    store [h] and the new track list; it raises when a coordinate cannot
    be converted. *)
Definition polylines_of (h : list Track) (new_tracks : list loc)
    : option (list (list (Z * Z))) :=
  mapM (λ l, track ← h !! l; mapM np_int32 track) new_tracks.

(** [Tracker.update_tracks].  With no live track the estimator returns
    [(None, None, None)] and the backward call raises on it.  Of the
    drawing on [vis] only the raising is kept. *)
Definition update_tracks (frame_gray : image) (self : Tracker image)
    : option (Tracker image) :=
  img_old ← prev_gray self;
  let img_new := frame_gray in
  points_pld ← latest_points self;
  match points_pld with
  | [] => None
  | _ :: _ =>
      let '(points_new, point_valid) :=
        back_tracking img_old img_new points_pld in
      '(h, new_tracks) ←
        update_loop (λ xy, circle_accepts xy 2 (0, 255, 0) (-1))
          (track_len self)
          (zip (zip (tracks self) points_new) point_valid) (heap self) [];
      polylines ← polylines_of h new_tracks;
      if polylines_accepts polylines false (0, 255, 0)
      then Some {| track_len := track_len self;
                   detect_interval := detect_interval self;
                   tracks := new_tracks;
                   frame_idx := frame_idx self;
                   prev_gray := prev_gray self;
                   heap := h |}
      else None
  end.

(** [self.tracks.append([(x, y)])]: a fresh list object. *)
Definition seed (self : Tracker image) (xy : Point) : Tracker image :=
  {| track_len := track_len self;
     detect_interval := detect_interval self;
     tracks := tracks self ++ [length (heap self)];
     frame_idx := frame_idx self;
     prev_gray := prev_gray self;
     heap := heap self ++ [[xy]] |}.

(** The mask of [get_new_tracks] (lines 110-114): all 255, then a filled
    circle of radius 5 and colour 0 around every centre. *)
Definition build_mask (frame_gray : image) (centres : list (Z * Z)) : image :=
  foldl (λ mask c, circle mask c 5 0 (-1))
        (fill (zeros_like frame_gray) 255) centres.

(** [Tracker.get_new_tracks]. *)
Definition get_new_tracks (frame_gray : image) (self : Tracker image)
    : option (Tracker image) :=
  newest ← latest_points self;
  centres ← mapM np_int32 newest;
  let mask := build_mask frame_gray centres in
  match goodFeaturesToTrack frame_gray mask FEATURE_PARAMS with
  | None => Some self
  | Some feature_points => Some (foldl seed self feature_points)
  end.

(** Lines 47-48 of [run]: tracks are extended when there are any. *)
Definition extend_stage (frame_gray : image) (self : Tracker image)
    : option (Tracker image) :=
  if bool_decide (0 < length (tracks self))%nat
  then update_tracks frame_gray self else Some self.

(** Lines 51-52 of [run]: new tracks every [detect_interval] frames.  A
    zero [detect_interval] raises [ZeroDivisionError]. *)
Definition seed_stage (frame_gray : image) (self : Tracker image)
    : option (Tracker image) :=
  if bool_decide (detect_interval self = 0) then None
  else if bool_decide (frame_idx self `mod` detect_interval self = 0)
       then get_new_tracks frame_gray self else Some self.

(** Lines 54-55 of [run]. *)
Definition end_of_frame (frame_gray : image) (self : Tracker image)
    : Tracker image :=
  {| track_len := track_len self;
     detect_interval := detect_interval self;
     tracks := tracks self;
     frame_idx := frame_idx self + 1;
     prev_gray := Some frame_gray;
     heap := heap self |}.

(** One iteration of the loop of [Tracker.run] on the frame read from
    the camera; display and key handling belong to the driver. *)
Definition run_step (frame : image) (self : Tracker image)
    : option (Tracker image) :=
  let frame_gray := cvtColor frame in
  self1 ← extend_stage frame_gray self;
  self2 ← seed_stage frame_gray self1;
  Some (end_of_frame frame_gray self2).

(** The loop of [run] over the frames delivered until the user quits. *)
Fixpoint run_frames (frames : list image) (self : Tracker image)
    : option (Tracker image) :=
  match frames with
  | [] => Some self
  | frame :: frames' => self' ← run_step frame self; run_frames frames' self'
  end.

(** One pass through the body of the [while] loop of [run] (lines 42-60).
    [read] is the frame returned by [self.cam.read()], [None] when the
    read fails, on which [cv2.cvtColor] raises; [ch] is the key code
    returned by [cv2.waitKey(1)].  The pass reports whether it ends in
    [break]. *)
Definition loop_pass (read : option image) (ch : Z) (self : Tracker image)
    : option (Tracker image * bool) :=
  frame ← read;
  self' ← run_step frame self;
  Some (self', bool_decide (ch = 27)).

(** [Tracker.run] over the successive camera reads and key codes:
    [Some (self, true)] when the loop was left through [break],
    [Some (self, false)] when it is still running after the last event,
    [None] when a pass raised. *)
Fixpoint run (events : list (option image * Z)) (self : Tracker image)
    : option (Tracker image * bool) :=
  match events with
  | [] => Some (self, false)
  | (read, ch) :: events' =>
      match loop_pass read ch self with
      | None => None
      | Some (self', stop) =>
          if stop then Some (self', true) else run events' self'
      end
  end.

End Tracker.

(** ** Properties of tracker states *)

Section States.

Context {image : Type}.

(** The references held by [self.tracks] are distinct and each points to
    a non-empty list object. *)
Definition wf (self : Tracker image) : Prop :=
  NoDup (tracks self) ∧
  ∀ l, l ∈ tracks self → ∃ track, heap self !! l = Some track ∧ track ≠ [].

(** Every live track holds between 1 and 10 points. *)
Definition within_bounds (self : Tracker image) : Prop :=
  ∀ l, l ∈ tracks self →
    ∃ track, heap self !! l = Some track ∧ (1 ≤ length track ≤ 10)%nat.

(** What every state of a run satisfies: well-formed tracks within the
    bounds, and the configuration of [__init__]. *)
Definition stable (self : Tracker image) : Prop :=
  wf self ∧ within_bounds self ∧ track_len self = 10 ∧ detect_interval self = 5.

(** At the start of a loop iteration [prev_gray] is set as soon as there
    are tracks to extend. *)
Definition ready (self : Tracker image) : Prop :=
  tracks self ≠ [] → is_Some (prev_gray self).

(** A reference to an object of the store that is not live. *)
Definition retired (self : Tracker image) (l : loc) : Prop :=
  (l < length (heap self))%nat ∧ l ∉ tracks self.

(** The live tracks as values, in list order. *)
Definition contents (self : Tracker image) : list (option Track) :=
  (λ l, heap self !! l) <$> tracks self.

(** The newest points of the live tracks, in list order. *)
Definition newest_points (self : Tracker image) : list (option Point) :=
  latest (heap self) <$> tracks self.

End States.

(** Squared distance in float32 arithmetic, as the detector's spacing test
    computes it ([dx*dx + dy*dy < minDistance*minDistance]). *)
Definition dist2 (p q : Point) : F32.t :=
  let dx := F32.sub (fst p) (fst q) in
  let dy := F32.sub (snd p) (snd q) in
  F32.add (F32.mul dx dx) (F32.mul dy dy).

Definition closer_than (d : Z) (p q : Point) : bool :=
  F32.ltb (dist2 p q) (F32.of_Z (d * d)).

(** No two entries of [pts] are closer than [d]. *)
Definition well_separated (d : Z) (pts : list (option Point)) : Prop :=
  ∀ i j p q, i ≠ j → pts !! i = Some (Some p) → pts !! j = Some (Some q) →
    closer_than d p q = false.

(** The rows of the loop that pass the test, and the tracks they keep. *)
Definition good_rows {A : Type} (rows : list (A * Point * bool))
    : list (A * Point * bool) :=
  List.filter (λ r, snd r) rows.

Definition kept {A : Type} (rows : list (A * Point * bool)) : list A :=
  (λ r, fst (fst r)) <$> good_rows rows.

(** The drawing call returns for the point of every row that passes. *)
Definition all_accepted {A : Type} (accepts : Point → bool)
    (rows : list (A * Point * bool)) : bool :=
  forallb (λ r, negb (snd r) || accepts (snd (fst r))) rows.

(** [update_tracks] on track values instead of track objects: the list
    of surviving tracks, each with its new point. *)
Definition extend_all (track_len : Z) (points_new : list Point)
    (point_valid : list bool) (trs : list Track) : list Track :=
  (λ r, append_trim track_len (fst (fst r)) (snd (fst r))) <$>
    good_rows (zip (zip trs points_new) point_valid).

(** The detector keeps its results [minDistance] apart. *)
Definition detector_spacing {image : Type} {cv : CV image} : Prop :=
  ∀ frame mask prm pts,
    goodFeaturesToTrack frame mask prm = Some pts →
    well_separated (minDistance prm) (Some <$> pts).

(** ** A small scene for examples

    A frame lists its corner candidates, strongest first, the horizontal
    position of the camera, and the pixels at which the flow goes astray
    (an occluder).  A mask is a background value with filled discs drawn
    on it, latest first.  The flow moves every point by the camera motion
    between the two frames, three pixels further when it starts on an
    occluded pixel; the status flag it reports is chosen by the example. *)
Module Toy.

Record Scene := {
  corners : list Point;
  pan : Z;
  hidden : list (Z * Z);
  base : Z;
  discs : list (Z * Z * Z * Z)
}.

Definition covers (px : Z * Z) (d : Z * Z * Z * Z) : bool :=
  let '(cx, cy, r, _) := d in
  (fst px - cx) ^ 2 + (snd px - cy) ^ 2 <=? r ^ 2.

Definition pixel (m : Scene) (px : Z * Z) : Z :=
  match List.find (covers px) (discs m) with
  | Some (_, _, _, colour) => colour
  | None => base m
  end.

Definition eligible (mask : Scene) (p : Point) : bool :=
  match np_int32 p with
  | Some px => negb (pixel mask px =? 0)
  | None => false
  end.

Definition near (d : Z) (p q : Point) : bool :=
  closer_than d p q || closer_than d q p.

(** Greedy selection: a candidate is accepted when it is not near any
    point accepted before. *)
Fixpoint select (d : Z) (cands acc : list Point) : list Point :=
  match cands with
  | [] => acc
  | p :: cands' =>
      if forallb (λ q, negb (near d p q)) acc
      then select d cands' (acc ++ [p]) else select d cands' acc
  end.

Definition detect (frame mask : Scene) (prm : FeatureParams)
    : option (list Point) :=
  match select (minDistance prm)
          (List.filter (eligible mask) (corners frame)) [] with
  | [] => None
  | pts => Some pts
  end.

Definition move (prev next : Scene) (p : Point) : Point :=
  let q := (F32.add (fst p) (F32.of_Z (pan next - pan prev)), snd p) in
  if bool_decide (np_int32 p ∈ Some <$> hidden prev)
  then (F32.add (fst q) (F32.of_Z 3), snd q) else q.

Definition flow (st : bool) (prev next : Scene) (pts : list Point)
    (prm : LKParams) : list Point * list bool * list F32.t :=
  (move prev next <$> pts, (λ _, st) <$> pts, (λ _, F32.of_Z 0) <$> pts).

(** A binding in which [cv2.circle] takes the float centres when
    [floats] holds, and requires integer centres otherwise. *)
Definition binding (st floats : bool) : CV Scene := {|
  cvtColor := id;
  calcOpticalFlowPyrLK := flow st;
  calcOpticalFlowPyrLK_rows prev next pts prm _ :=
    length_fmap (move prev next) pts;
  zeros_like frame :=
    {| corners := corners frame; pan := pan frame; hidden := hidden frame;
       base := 0; discs := [] |};
  fill m v :=
    {| corners := corners m; pan := pan m; hidden := hidden m;
       base := v; discs := [] |};
  circle m c r colour thickness :=
    {| corners := corners m; pan := pan m; hidden := hidden m;
       base := base m; discs := (fst c, snd c, r, colour) :: discs m |};
  goodFeaturesToTrack := detect;
  circle_accepts centre r colour thickness := floats;
  polylines_accepts pts closed colour := true
|}.

Definition cv (st : bool) : CV Scene := binding st true.
Definition strict : CV Scene := binding true false.

Definition pt (x y : Z) : Point := (F32.of_Z x, F32.of_Z y).

(** A frame showing the given corners, with the camera at [x]. *)
Definition frame (cs : list Point) (x : Z) (occluded : list (Z * Z)) : Scene :=
  {| corners := cs; pan := x; hidden := occluded; base := 0; discs := [] |}.

(** A still camera on one corner for five frames; in the sixth frame a
    second corner shows six pixels to the right of the first. *)
Definition still : list Scene := replicate 5 (frame [pt 10 10] 0 []).
Definition second_corner : Scene := frame [pt 10 10; pt 16 10] 0 [].

(** Two corners; in the second frame the right one is occluded. *)
Definition two_corners : Scene := frame [pt 10 10; pt 30 10] 0 [].
Definition occluding : Scene := frame [] 1 [(31, 10)].

(** One corner and a camera panning one pixel per frame. *)
Definition panning (n : nat) : list Scene :=
  frame [pt 10 10] 0 [] :: ((λ i, frame [] (Z.of_nat i) []) <$> seq 1 n).

(** The tracker after the given frames. *)
Definition after (st : bool) (frames : list Scene) : Tracker Scene :=
  default init (run_frames (cv := cv st) frames init).

(** The tracker after an extension pass, and after a seeding pass. *)
Definition extended (st : bool) (frame : Scene) (self : Tracker Scene)
    : Tracker Scene :=
  default self (update_tracks (cv := cv st) frame self).

Definition seeded (st : bool) (frame : Scene) (self : Tracker Scene)
    : Tracker Scene :=
  default self (get_new_tracks (cv := cv st) frame self).

End Toy.

(** ** The loop of [update_tracks] *)

Section Rows.

Context {A : Type}.
Implicit Types rows : list (A * Point * bool).

Lemma kept_cons_good (l : A) xy rows :
  kept ((l, xy, true) :: rows) = l :: kept rows.
Proof. reflexivity. Qed.

Lemma kept_cons_bad (l : A) xy rows :
  kept ((l, xy, false) :: rows) = kept rows.
Proof. reflexivity. Qed.

Lemma elem_of_good_rows rows r :
  r ∈ good_rows rows ↔ r ∈ rows ∧ snd r = true.
Proof.
  unfold good_rows. rewrite !list_elem_of_In. apply filter_In.
Qed.

Lemma elem_of_kept rows (l : A) :
  l ∈ kept rows ↔ ∃ xy, (l, xy, true) ∈ rows.
Proof.
  unfold kept. rewrite list_elem_of_fmap. split.
  - intros ([[l' xy] g] & -> & Hin). apply elem_of_good_rows in Hin as [Hin Hg].
    simpl in *. subst g. eauto.
  - intros [xy Hin]. exists (l, xy, true). split; [done|].
    apply elem_of_good_rows. done.
Qed.

Lemma kept_sublist rows : kept rows `sublist_of` rows.*1.*1.
Proof.
  induction rows as [|[[l xy] [|]] rows IH]; simpl.
  - constructor.
  - rewrite kept_cons_good. by constructor.
  - rewrite kept_cons_bad. by constructor.
Qed.

End Rows.

Lemma update_loop_spec accepts tl (rows : list (loc * Point * bool)) :
  ∀ (h : list Track) acc,
    NoDup (rows.*1.*1) →
    (∀ l, l ∈ rows.*1.*1 → is_Some (h !! l)) →
    ∃ h', update_loop accepts tl rows h acc =
            (if all_accepted accepts rows
             then Some (h', acc ++ kept rows) else None) ∧
      length h' = length h ∧
      (∀ l xy, (l, xy, true) ∈ rows →
         ∃ track, h !! l = Some track ∧
                  h' !! l = Some (append_trim tl track xy)) ∧
      (∀ l, l ∉ kept rows → h' !! l = h !! l).
Proof.
  induction rows as [|[[l xy] good] rows IH]; intros h acc Hnd Hval.
  - exists h. simpl. rewrite app_nil_r. repeat split; try done.
    intros l xy Hin. by apply elem_of_nil in Hin.
  - simpl in Hnd. apply NoDup_cons in Hnd as [Hl Hnd].
    destruct good; simpl.
    + destruct (Hval l) as [track Htrack]; [simpl; left|].
      rewrite Htrack. simpl.
      set (h1 := <[l := append_trim tl track xy]> h).
      destruct (IH h1 (acc ++ [l]) Hnd) as (h' & Hrun & Hlen & Hgood & Hrest).
      { intros l' Hl'. apply lookup_lt_is_Some. unfold h1.
        rewrite length_insert. apply lookup_lt_is_Some, Hval. simpl. by right. }
      assert (Hfresh : l ∉ kept rows).
      { intros Hin. apply Hl. eapply elem_of_sublist; [done|apply kept_sublist]. }
      exists h'. split.
      { destruct (accepts xy); simpl; [|done].
        rewrite Hrun, kept_cons_good, <- app_assoc. done. }
      split; [by rewrite Hlen; unfold h1; rewrite length_insert|].
      split.
      * intros l' xy' Hin. apply elem_of_cons in Hin as [Heq|Hin].
        -- inversion Heq; subst l' xy'. exists track. split; [done|].
           rewrite (Hrest l Hfresh). unfold h1.
           apply list_lookup_insert_eq. by apply lookup_lt_Some in Htrack.
        -- assert (l' ≠ l).
           { intros ->. apply Hl.
             apply list_elem_of_fmap. exists (l, xy'). split; [done|].
             apply list_elem_of_fmap. by exists (l, xy', true). }
           destruct (Hgood l' xy' Hin) as (track' & H1 & H2).
           exists track'. split; [|done].
           unfold h1 in H1. by rewrite list_lookup_insert_ne in H1.
      * intros l' Hl'. rewrite kept_cons_good in Hl'.
        apply not_elem_of_cons in Hl' as [Hne Hl'].
        rewrite (Hrest l' Hl'). unfold h1. by rewrite list_lookup_insert_ne.
    + destruct (IH h acc Hnd) as (h' & Hrun & Hlen & Hgood & Hrest).
      { intros l' Hl'. apply Hval. simpl. by right. }
      exists h'. rewrite Hrun, kept_cons_bad. repeat split; try done.
      intros l' xy' Hin. apply elem_of_cons in Hin as [Heq|Hin]; [done|].
      by apply Hgood.
Qed.

(** A loop that returns has drawn the point of every passing row. *)
Lemma update_loop_accepted accepts tl (rows : list (loc * Point * bool)) :
  ∀ (h : list Track) acc,
    is_Some (update_loop accepts tl rows h acc) →
    all_accepted accepts rows = true.
Proof.
  induction rows as [|[[l xy] good] rows IH]; intros h acc Hrun; [done|].
  destruct good; simpl in *.
  - destruct (h !! l) as [track|]; simpl in Hrun; [|by destruct Hrun].
    destruct (accepts xy); simpl; [by eapply IH|by destruct Hrun].
  - by eapply IH.
Qed.

Lemma all_accepted_lookup {A : Type} accepts
    (rows : list (A * Point * bool)) i l xy :
  all_accepted accepts rows = true → rows !! i = Some (l, xy, true) →
  accepts xy = true.
Proof.
  unfold all_accepted. rewrite forallb_forall. intros Hall Hi.
  apply list_elem_of_lookup_2, list_elem_of_In, Hall in Hi. done.
Qed.

Lemma lookup_rows {A : Type} (ls : list A) (pn : list Point) (pv : list bool)
    i l xy g :
  zip (zip ls pn) pv !! i = Some (l, xy, g) ↔
  ls !! i = Some l ∧ pn !! i = Some xy ∧ pv !! i = Some g.
Proof.
  rewrite lookup_zip_with_Some. split.
  - intros ([l' xy'] & g' & Heq & Hi & Hg). inversion Heq; subst.
    apply lookup_zip_with_Some in Hi as (l'' & xy'' & Heq' & Hl & Hxy).
    by inversion Heq'; subst.
  - intros (Hl & Hxy & Hg). exists (l, xy), g. split; [done|]. split; [|done].
    apply lookup_zip_with_Some. by exists l, xy.
Qed.

Lemma elem_of_rows {A : Type} (ls : list A) (pn : list Point)
    (pv : list bool) l xy g :
  (l, xy, g) ∈ zip (zip ls pn) pv ↔
  ∃ i, ls !! i = Some l ∧ pn !! i = Some xy ∧ pv !! i = Some g.
Proof.
  rewrite list_elem_of_lookup. by setoid_rewrite lookup_rows.
Qed.

Lemma rows_sublist {A : Type} (ls : list A) (pn : list Point)
    (pv : list bool) :
  (zip (zip ls pn) pv).*1.*1 `sublist_of` ls.
Proof.
  revert pn pv. induction ls as [|l ls IH]; intros pn pv.
  - constructor.
  - destruct pn as [|xy pn]; [apply sublist_nil_l|].
    destruct pv as [|g pv]; [apply sublist_nil_l|].
    simpl. constructor. apply IH.
Qed.

Lemma append_trim_nonempty tl track xy : track ≠ [] → append_trim tl track xy ≠ [].
Proof.
  intros Hne. unfold append_trim. case_bool_decide.
  - destruct track as [|p track]; [done|]. simpl. rewrite drop_0.
    by destruct track.
  - by destruct track.
Qed.

Lemma append_trim_drop tl track xy :
  track ≠ [] →
  append_trim tl track xy =
    drop (if bool_decide (tl < Z.of_nat (length track) + 1) then 1%nat else 0%nat)
         track ++ [xy].
Proof.
  intros Hne. unfold append_trim. rewrite length_app. simpl.
  replace (Z.of_nat (length track + 1)) with (Z.of_nat (length track) + 1) by lia.
  case_bool_decide; [|done]. by destruct track.
Qed.

Lemma append_trim_length tl track xy :
  1 ≤ tl → Z.of_nat (length track) ≤ tl →
  Z.of_nat (length (append_trim tl track xy)) ≤ tl ∧
  (1 ≤ length (append_trim tl track xy))%nat.
Proof.
  intros Htl Hlen. unfold append_trim. rewrite length_app. simpl.
  case_bool_decide.
  - rewrite length_drop, length_app. simpl. split; lia.
  - rewrite length_app in *. simpl in *. split; lia.
Qed.

(** ** The extension pass *)

Section Extension.

Context {image : Type} {cv : CV image}.
Implicit Types self : Tracker image.

Lemma wf_lookup self l :
  wf self → l ∈ tracks self →
  ∃ track p, heap self !! l = Some track ∧ last track = Some p ∧
             latest (heap self) l = Some p.
Proof.
  intros [_ Hval] Hl. destruct (Hval l Hl) as (track & Htrack & Hne).
  apply last_is_Some in Hne as [p Hp]. exists track, p.
  unfold latest. rewrite Htrack. done.
Qed.

Lemma wf_latest_points self : wf self → is_Some (latest_points self).
Proof.
  intros Hwf. apply mapM_is_Some_2, Forall_forall. intros l Hl.
  destruct (wf_lookup self l Hwf Hl) as (track & p & _ & _ & Hp).
  simpl. by rewrite Hp.
Qed.

Lemma latest_points_length self points_pld :
  latest_points self = Some points_pld →
  length points_pld = length (tracks self).
Proof.
  intros Hpld. apply mapM_Some in Hpld. symmetry. by eapply Forall2_length.
Qed.

Lemma latest_points_lookup self points_pld i l :
  latest_points self = Some points_pld → tracks self !! i = Some l →
  ∃ track p, heap self !! l = Some track ∧ last track = Some p ∧
             points_pld !! i = Some p.
Proof.
  intros Hpld Hl. apply mapM_Some in Hpld.
  destruct (Forall2_lookup_l _ _ _ _ _ Hpld Hl) as (p & Hp & Hlatest).
  unfold latest in Hlatest.
  destruct (heap self !! l) as [track|] eqn:Htrack; [|done].
  exists track, p. done.
Qed.

Lemma back_tracking_eq img_old img_new points_pld :
  back_tracking img_old img_new points_pld =
    let points_new :=
      (calcOpticalFlowPyrLK img_old img_new points_pld LK_PARAMS).1.1 in
    let points_old_inferred :=
      (calcOpticalFlowPyrLK img_new img_old points_new LK_PARAMS).1.1 in
    (points_new,
     below_threshold <$> zip_with error_term_of points_pld points_old_inferred).
Proof.
  unfold back_tracking.
  destruct (calcOpticalFlowPyrLK img_old img_new points_pld LK_PARAMS)
    as [[points_new st] err]. simpl.
  by destruct (calcOpticalFlowPyrLK img_new img_old points_new LK_PARAMS)
    as [[inferred st'] err'].
Qed.

Lemma flow_nonempty img_old img_new (points_pld : list Point) :
  points_pld ≠ [] →
  (calcOpticalFlowPyrLK img_old img_new points_pld LK_PARAMS).1.1 ≠ [].
Proof.
  intros Hne Hnil. apply (f_equal length) in Hnil.
  rewrite calcOpticalFlowPyrLK_rows in Hnil by done. by destruct points_pld.
Qed.

Lemma back_tracking_length img_old img_new points_pld points_new point_valid :
  points_pld ≠ [] →
  back_tracking img_old img_new points_pld = (points_new, point_valid) →
  length points_new = length points_pld ∧
  length point_valid = length points_pld.
Proof.
  intros Hne. rewrite back_tracking_eq. simpl. intros [= <- <-].
  rewrite length_fmap, length_zip_with.
  rewrite (calcOpticalFlowPyrLK_rows img_new img_old)
    by (by apply flow_nonempty).
  rewrite calcOpticalFlowPyrLK_rows by done. lia.
Qed.

Lemma back_tracking_verdict img_old img_new points_pld points_new point_valid
    i g :
  back_tracking img_old img_new points_pld = (points_new, point_valid) →
  point_valid !! i = Some g ↔
  ∃ p q, points_pld !! i = Some p ∧
         (calcOpticalFlowPyrLK img_new img_old points_new LK_PARAMS).1.1 !! i
           = Some q ∧
         g = below_threshold (error_term_of p q).
Proof.
  rewrite back_tracking_eq. simpl. intros [= <- <-].
  rewrite list_lookup_fmap_Some. setoid_rewrite lookup_zip_with_Some. split.
  - intros (e & -> & p & q & -> & Hp & Hq). eauto.
  - intros (p & q & Hp & Hq & ->). exists (error_term_of p q). split; [done|].
    eauto.
Qed.

Lemma update_tracks_spec frame self img_old points_pld points_new point_valid :
  wf self → prev_gray self = Some img_old →
  latest_points self = Some points_pld → points_pld ≠ [] →
  back_tracking img_old frame points_pld = (points_new, point_valid) →
  ∃ h',
    update_tracks frame self =
      (if all_accepted (λ xy, circle_accepts xy 2 (0, 255, 0) (-1))
            (zip (zip (tracks self) points_new) point_valid)
       then
         polylines ←
           polylines_of h'
             (kept (zip (zip (tracks self) points_new) point_valid));
         if polylines_accepts polylines false (0, 255, 0)
         then Some {| track_len := track_len self;
                      detect_interval := detect_interval self;
                      tracks :=
                        kept (zip (zip (tracks self) points_new) point_valid);
                      frame_idx := frame_idx self;
                      prev_gray := prev_gray self;
                      heap := h' |}
         else None
       else None) ∧
    length h' = length (heap self) ∧
    (∀ i l xy, tracks self !! i = Some l → points_new !! i = Some xy →
       point_valid !! i = Some true →
       ∃ track, heap self !! l = Some track ∧
                h' !! l = Some (append_trim (track_len self) track xy)) ∧
    (∀ l, l ∉ kept (zip (zip (tracks self) points_new) point_valid) →
       h' !! l = heap self !! l).
Proof.
  intros Hwf Hprev Hpld Hne Hbt. unfold update_tracks.
  rewrite Hprev. simpl. rewrite Hpld. simpl.
  destruct points_pld as [|p points_pld']; [done|]. rewrite Hbt.
  destruct (update_loop_spec (λ xy, circle_accepts xy 2 (0, 255, 0) (-1))
              (track_len self)
              (zip (zip (tracks self) points_new) point_valid)
              (heap self) [])
    as (h' & Hrun & Hlen & Hgood & Hrest).
  { eapply sublist_NoDup; [apply Hwf|apply rows_sublist]. }
  { intros l Hl. destruct Hwf as [_ Hval].
    destruct (Hval l) as (track & Htrack & _).
    - eapply elem_of_sublist; [done|apply rows_sublist].
    - by rewrite Htrack. }
  exists h'. rewrite Hrun. split.
  { by destruct (all_accepted _ _). }
  repeat split; try done.
  intros i l xy Hl Hxy Hg. apply Hgood, elem_of_rows. eauto.
Qed.

Lemma update_tracks_nonempty frame self self' points_pld :
  update_tracks frame self = Some self' →
  latest_points self = Some points_pld → points_pld ≠ [].
Proof.
  unfold update_tracks. intros Hrun Hpld ->.
  destruct (prev_gray self); simpl in Hrun; [|done].
  by rewrite Hpld in Hrun.
Qed.

Lemma kept_rows_index (ls : list nat) points_new point_valid i l :
  NoDup ls → ls !! i = Some l →
  l ∈ kept (zip (zip ls points_new) point_valid) ↔
  ∃ xy, points_new !! i = Some xy ∧ point_valid !! i = Some true.
Proof.
  intros Hnd Hl. rewrite elem_of_kept. split.
  - intros (xy & Hin). apply elem_of_rows in Hin as (j & Hj & Hxy & Hg).
    rewrite (NoDup_lookup _ _ _ _ Hnd Hl Hj). eauto.
  - intros (xy & Hxy & Hg). exists xy. apply elem_of_rows. eauto.
Qed.

(** What a successful call of [update_tracks] did, row by row. *)
Lemma update_tracks_inv frame self self' img_old points_pld points_new
    point_valid :
  wf self → prev_gray self = Some img_old →
  latest_points self = Some points_pld →
  back_tracking img_old frame points_pld = (points_new, point_valid) →
  update_tracks frame self = Some self' →
  tracks self' = kept (zip (zip (tracks self) points_new) point_valid) ∧
  track_len self' = track_len self ∧
  detect_interval self' = detect_interval self ∧
  frame_idx self' = frame_idx self ∧
  prev_gray self' = prev_gray self ∧
  length (heap self') = length (heap self) ∧
  (∀ i l, tracks self !! i = Some l →
     l ∈ tracks self' ↔
     ∃ xy, points_new !! i = Some xy ∧ point_valid !! i = Some true) ∧
  (∀ i l xy, tracks self !! i = Some l → points_new !! i = Some xy →
     point_valid !! i = Some true →
     ∃ track, heap self !! l = Some track ∧
       heap self' !! l = Some (append_trim (track_len self) track xy)) ∧
  (∀ l, l ∉ tracks self' → heap self' !! l = heap self !! l).
Proof.
  intros Hwf Hprev Hpld Hbt Hrun.
  pose proof (update_tracks_nonempty _ _ _ _ Hrun Hpld) as Hne.
  destruct (update_tracks_spec frame self img_old points_pld points_new
              point_valid Hwf Hprev Hpld Hne Hbt)
    as (h' & Hrun' & Hlen & Hgood & Hrest).
  rewrite Hrun in Hrun'.
  destruct (all_accepted _ _); [|done].
  destruct (polylines_of _ _) as [polylines|]; simpl in Hrun'; [|done].
  destruct (polylines_accepts _ _ _); [|done].
  injection Hrun' as ->. simpl.
  repeat split; try done.
  - by apply kept_rows_index; [apply Hwf|].
  - by apply kept_rows_index; [apply Hwf|].
Qed.

(** What a successful call of [update_tracks] has drawn. *)
Lemma update_tracks_drawn frame self self' img_old points_pld points_new
    point_valid :
  prev_gray self = Some img_old →
  latest_points self = Some points_pld →
  back_tracking img_old frame points_pld = (points_new, point_valid) →
  update_tracks frame self = Some self' →
  points_pld ≠ [] ∧
  all_accepted (λ xy, circle_accepts xy 2 (0, 255, 0) (-1))
    (zip (zip (tracks self) points_new) point_valid) = true ∧
  ∃ polylines,
    polylines_of (heap self') (tracks self') = Some polylines ∧
    polylines_accepts polylines false (0, 255, 0) = true.
Proof.
  intros Hprev Hpld Hbt Hrun.
  split; [by eapply update_tracks_nonempty|].
  unfold update_tracks in Hrun. rewrite Hprev in Hrun. simpl in Hrun.
  rewrite Hpld in Hrun. simpl in Hrun.
  destruct points_pld as [|p points_pld']; [done|]. rewrite Hbt in Hrun.
  destruct (update_loop _ _ _ _ _) as [[h new_tracks]|] eqn:Hloop;
    simpl in Hrun; [|done].
  destruct (polylines_of h new_tracks) as [polylines|] eqn:Hpoly;
    simpl in Hrun; [|done].
  destruct (polylines_accepts _ _ _) eqn:Hacc; [|done].
  injection Hrun as <-. simpl. split.
  - eapply update_loop_accepted. by rewrite Hloop.
  - by exists polylines.
Qed.

Lemma update_tracks_wf frame self self' :
  wf self → update_tracks frame self = Some self' → wf self'.
Proof.
  intros Hwf Hrun.
  destruct (prev_gray self) as [img_old|] eqn:Hprev;
    [|by unfold update_tracks in Hrun; rewrite Hprev in Hrun].
  destruct (wf_latest_points self Hwf) as [points_pld Hpld].
  destruct (back_tracking img_old frame points_pld)
    as [points_new point_valid] eqn:Hbt.
  destruct (update_tracks_inv _ _ _ _ _ _ _ Hwf Hprev Hpld Hbt Hrun)
    as (Htr & _ & _ & _ & _ & _ & _ & Hgood & _).
  split.
  - rewrite Htr. eapply sublist_NoDup; [apply Hwf|].
    etrans; [apply kept_sublist|apply rows_sublist].
  - intros l Hl. rewrite Htr in Hl.
    apply elem_of_kept in Hl as (xy & Hin).
    apply elem_of_rows in Hin as (i & Hi & Hxy & Hg).
    destruct (Hgood i l xy Hi Hxy Hg) as (track & Htrack & Htrack').
    exists (append_trim (track_len self) track xy). split; [done|].
    apply append_trim_nonempty.
    destruct Hwf as [_ Hval].
    destruct (Hval l) as (track0 & Htrack0 & Hne);
      [by eapply list_elem_of_lookup_2|].
    congruence.
Qed.

Lemma update_tracks_within_bounds frame self self' :
  wf self → track_len self = 10 → within_bounds self →
  update_tracks frame self = Some self' → within_bounds self'.
Proof.
  intros Hwf Htl Hb Hrun.
  destruct (prev_gray self) as [img_old|] eqn:Hprev;
    [|by unfold update_tracks in Hrun; rewrite Hprev in Hrun].
  destruct (wf_latest_points self Hwf) as [points_pld Hpld].
  destruct (back_tracking img_old frame points_pld)
    as [points_new point_valid] eqn:Hbt.
  destruct (update_tracks_inv _ _ _ _ _ _ _ Hwf Hprev Hpld Hbt Hrun)
    as (Htr & _ & _ & _ & _ & _ & _ & Hgood & _).
  intros l Hl. rewrite Htr in Hl.
  apply elem_of_kept in Hl as (xy & Hin).
  apply elem_of_rows in Hin as (i & Hi & Hxy & Hg).
  destruct (Hgood i l xy Hi Hxy Hg) as (track & Htrack & Htrack').
  exists (append_trim (track_len self) track xy). split; [done|].
  destruct (Hb l) as (track0 & Htrack0 & Hlen);
    [by eapply list_elem_of_lookup_2|].
  assert (track0 = track) as -> by congruence.
  rewrite Htl.
  destruct (append_trim_length 10 track xy) as [H1 H2]; lia.
Qed.

Lemma wf_contents self : wf self → ∃ trs, contents self = Some <$> trs.
Proof.
  intros [_ Hval]. unfold contents.
  induction (tracks self) as [|l ls IH].
  - by exists [].
  - destruct IH as [trs Htrs].
    { intros l' Hl'. apply Hval. by right. }
    destruct (Hval l) as (track & Htrack & _); [by left|].
    exists (track :: trs). by rewrite !fmap_cons, Htrack, Htrs.
Qed.

Lemma latest_points_contents self trs :
  contents self = Some <$> trs → latest_points self = mapM last trs.
Proof.
  unfold contents, latest_points. revert trs.
  induction (tracks self) as [|l ls IH]; intros [|track trs] Heq;
    try done.
  rewrite !fmap_cons in Heq. injection Heq as Hl Hls.
  change (mapM (latest (heap self)) (l :: ls)) with
    (y ← latest (heap self) l; k ← mapM (latest (heap self)) ls; mret (y :: k)).
  change (mapM last (track :: trs)) with
    (y ← last track; k ← mapM last trs; mret (y :: k)).
  rewrite (IH trs Hls). unfold latest. by rewrite Hl.
Qed.

Lemma extend_all_cons_good tl xy pn pv (track : list Point) trs :
  extend_all tl (xy :: pn) (true :: pv) (track :: trs) =
    append_trim tl track xy :: extend_all tl pn pv trs.
Proof. reflexivity. Qed.

Lemma extend_all_cons_bad tl xy pn pv (track : list Point) trs :
  extend_all tl (xy :: pn) (false :: pv) (track :: trs) =
    extend_all tl pn pv trs.
Proof. reflexivity. Qed.

Lemma kept_rows_contents tl (h h' : list (list Point)) :
  ∀ (ls : list nat) (trs : list (list Point)) points_new point_valid,
    (λ l, h !! l) <$> ls = Some <$> trs →
    (∀ l xy, (l, xy, true) ∈ zip (zip ls points_new) point_valid →
       ∃ track, h !! l = Some track ∧
                h' !! l = Some (append_trim tl track xy)) →
    (λ l, h' !! l) <$> kept (zip (zip ls points_new) point_valid) =
    Some <$> extend_all tl points_new point_valid trs.
Proof.
  induction ls as [|l ls IH]; intros [|track trs] pn pv Heq Hgood; try done.
  destruct pn as [|xy pn]; [done|]. destruct pv as [|g pv]; [done|].
  simpl in Heq. injection Heq as Hl Hls.
  assert (Htail : (λ l, h' !! l) <$> kept (zip (zip ls pn) pv) =
                  Some <$> extend_all tl pn pv trs).
  { apply IH; [done|]. intros l' xy' Hin. apply Hgood. simpl. by right. }
  destruct g.
  - change (zip (zip (l :: ls) (xy :: pn)) (true :: pv))
      with ((l, xy, true) :: zip (zip ls pn) pv).
    rewrite kept_cons_good, extend_all_cons_good, !fmap_cons, Htail.
    f_equal.
    destruct (Hgood l xy) as (track' & H1 & H2); [simpl; by left|].
    congruence.
  - change (zip (zip (l :: ls) (xy :: pn)) (false :: pv))
      with ((l, xy, false) :: zip (zip ls pn) pv).
    by rewrite kept_cons_bad, extend_all_cons_bad.
Qed.

(** The extension pass on track values: the surviving tracks of
    [update_tracks] are those of [extend_all]. *)
Lemma update_tracks_contents frame self self' img_old points_pld points_new
    point_valid trs :
  wf self → prev_gray self = Some img_old →
  latest_points self = Some points_pld →
  back_tracking img_old frame points_pld = (points_new, point_valid) →
  update_tracks frame self = Some self' →
  contents self = Some <$> trs →
  contents self' =
    Some <$> extend_all (track_len self) points_new point_valid trs.
Proof.
  intros Hwf Hprev Hpld Hbt Hrun Htrs.
  destruct (update_tracks_inv _ _ _ _ _ _ _ Hwf Hprev Hpld Hbt Hrun)
    as (Htr & _ & _ & _ & _ & _ & _ & Hgood & _).
  unfold contents. rewrite Htr.
  apply (kept_rows_contents _ (heap self)); [done|].
  intros l xy Hin. apply elem_of_rows in Hin as (i & Hi & Hxy & Hg). eauto.
Qed.

Lemma all_accepted_rows {A B : Type} accepts (ls : list A) :
  ∀ (trs : list B) (pn : list Point) (pv : list bool),
    length ls = length trs →
    all_accepted accepts (zip (zip ls pn) pv) =
    all_accepted accepts (zip (zip trs pn) pv).
Proof.
  induction ls as [|l ls IH]; intros [|track trs] pn pv Hlen; try done.
  destruct pn as [|xy pn]; [done|]. destruct pv as [|g pv]; [done|].
  unfold all_accepted. cbn [zip zip_with forallb snd fst]. f_equal.
  apply IH. simpl in Hlen. lia.
Qed.

Lemma polylines_of_contents (h : list (list Point)) :
  ∀ (ls : list nat) (trs : list (list Point)),
    (λ l, h !! l) <$> ls = Some <$> trs →
    polylines_of h ls = mapM (mapM np_int32) trs.
Proof.
  unfold polylines_of.
  induction ls as [|l ls IH]; intros [|track trs] Heq; try done.
  rewrite !fmap_cons in Heq. injection Heq as Hl Hls.
  change (mapM (λ l, track ← h !! l; mapM np_int32 track) (l :: ls)) with
    (y ← (track ← h !! l; mapM np_int32 track);
     k ← mapM (λ l, track ← h !! l; mapM np_int32 track) ls; mret (y :: k)).
  change (mapM (mapM np_int32) (track :: trs)) with
    (y ← mapM np_int32 track; k ← mapM (mapM np_int32) trs; mret (y :: k)).
  by rewrite (IH trs Hls), Hl.
Qed.

(** The whole of [update_tracks] on track values, raising included. *)
Lemma update_tracks_value frame self img_old points_pld points_new
    point_valid trs :
  wf self → prev_gray self = Some img_old →
  latest_points self = Some points_pld → points_pld ≠ [] →
  back_tracking img_old frame points_pld = (points_new, point_valid) →
  contents self = Some <$> trs →
  contents <$> update_tracks frame self =
    (if all_accepted (λ xy, circle_accepts xy 2 (0, 255, 0) (-1))
          (zip (zip trs points_new) point_valid)
     then
       polylines ←
         mapM (mapM np_int32)
           (extend_all (track_len self) points_new point_valid trs);
       if polylines_accepts polylines false (0, 255, 0)
       then Some (Some <$>
                    extend_all (track_len self) points_new point_valid trs)
       else None
     else None).
Proof.
  intros Hwf Hprev Hpld Hne Hbt Htrs.
  destruct (update_tracks_spec frame self img_old points_pld points_new
              point_valid Hwf Hprev Hpld Hne Hbt)
    as (h' & -> & _ & Hgood & _).
  assert (Hlen : length (tracks self) = length trs).
  { apply (f_equal length) in Htrs. unfold contents in Htrs.
    by rewrite !length_fmap in Htrs. }
  rewrite (all_accepted_rows _ (tracks self) trs _ _ Hlen).
  destruct (all_accepted _ _); [|done].
  assert (Hkept :
    (λ l, h' !! l) <$> kept (zip (zip (tracks self) points_new) point_valid)
    = Some <$> extend_all (track_len self) points_new point_valid trs).
  { apply (kept_rows_contents _ (heap self)); [done|].
    intros l xy Hin. apply elem_of_rows in Hin as (i & Hi & Hxy & Hg). eauto. }
  rewrite (polylines_of_contents h' _ _ Hkept).
  destruct (mapM (mapM np_int32) _) as [polylines|]; [|done].
  cbn [mbind option_bind].
  destruct (polylines_accepts _ _ _); [|done].
  cbn [fmap option_fmap option_map]. f_equal. exact Hkept.
Qed.

End Extension.

(** ** The seeding pass *)

Section Seeding.

Context {image : Type} {cv : CV image}.
Implicit Types self : Tracker image.

Lemma foldl_seed pts :
  ∀ self,
    tracks (foldl seed self pts) =
      tracks self ++ seq (length (heap self)) (length pts) ∧
    heap (foldl seed self pts) = heap self ++ ((λ p, [p]) <$> pts) ∧
    track_len (foldl seed self pts) = track_len self ∧
    detect_interval (foldl seed self pts) = detect_interval self ∧
    frame_idx (foldl seed self pts) = frame_idx self ∧
    prev_gray (foldl seed self pts) = prev_gray self.
Proof.
  induction pts as [|p pts IH]; intros self; simpl.
  - by rewrite !app_nil_r.
  - destruct (IH (seed self p)) as (Htr & Hh & Htl & Hdi & Hfi & Hpg).
    rewrite Htr, Hh, Htl, Hdi, Hfi, Hpg. simpl.
    rewrite length_app, <- !app_assoc. simpl.
    by rewrite Nat.add_1_r.
Qed.

Lemma get_new_tracks_inv frame self self' :
  get_new_tracks frame self = Some self' →
  ∃ newest centres,
    latest_points self = Some newest ∧ mapM np_int32 newest = Some centres ∧
    match goodFeaturesToTrack frame (build_mask frame centres)
            FEATURE_PARAMS with
    | None => self' = self
    | Some feature_points => self' = foldl seed self feature_points
    end.
Proof.
  unfold get_new_tracks. destruct (latest_points self) as [newest|]; [|done].
  cbn [mbind option_bind]. intros Hrun.
  destruct (mapM np_int32 newest) as [centres|] eqn:Hcentres;
    cbn [mbind option_bind] in Hrun; [|done].
  exists newest, centres. split; [done|]. split; [done|].
  destruct (goodFeaturesToTrack _ _ _); by injection Hrun.
Qed.

Lemma foldl_seed_wf self pts : wf self → wf (foldl seed self pts).
Proof.
  intros [Hnd Hval].
  destruct (foldl_seed pts self) as (Htr & Hh & _). split.
  - rewrite Htr. apply NoDup_app. split; [done|]. split; [|apply NoDup_seq].
    intros l Hl Hl'. apply elem_of_seq in Hl'.
    destruct (Hval l Hl) as (track & Htrack & _).
    apply lookup_lt_Some in Htrack. lia.
  - intros l. rewrite Htr, Hh. intros Hl.
    apply elem_of_app in Hl as [Hl|Hl].
    + destruct (Hval l Hl) as (track & Htrack & Hne). exists track.
      split; [|done]. rewrite lookup_app_l; [done|].
      by eapply lookup_lt_Some.
    + apply elem_of_seq in Hl.
      destruct (lookup_lt_is_Some_2 pts (l - length (heap self))) as [p Hp];
        [lia|].
      exists [p]. split; [|done].
      rewrite lookup_app_r by lia. by rewrite list_lookup_fmap, Hp.
Qed.

Lemma foldl_seed_within_bounds self pts :
  within_bounds self → within_bounds (foldl seed self pts).
Proof.
  intros Hb. destruct (foldl_seed pts self) as (Htr & Hh & _).
  intros l. rewrite Htr, Hh. intros Hl.
  apply elem_of_app in Hl as [Hl|Hl].
  - destruct (Hb l Hl) as (track & Htrack & Hlen). exists track.
    split; [|done]. rewrite lookup_app_l; [done|].
    by eapply lookup_lt_Some.
  - apply elem_of_seq in Hl.
    destruct (lookup_lt_is_Some_2 pts (l - length (heap self))) as [p Hp];
      [lia|].
    exists [p]. split; [|simpl; lia].
    rewrite lookup_app_r by lia. by rewrite list_lookup_fmap, Hp.
Qed.

End Seeding.

(** ** The loop of [run] *)

Section Run.

Context {image : Type} {cv : CV image}.
Implicit Types self : Tracker image.

Lemma init_stable : stable (init (image := image)) ∧ ready (init (image := image)).
Proof.
  unfold stable, ready, wf, within_bounds. simpl.
  split; [|done]. split; [|split; [|done]].
  - split; [constructor|]. intros l Hl. by apply elem_of_nil in Hl.
  - intros l Hl. by apply elem_of_nil in Hl.
Qed.

Lemma update_tracks_stable frame self self' :
  stable self → update_tracks frame self = Some self' →
  stable self' ∧ prev_gray self' = prev_gray self ∧
  frame_idx self' = frame_idx self.
Proof.
  intros (Hwf & Hb & Htl & Hdi) Hrun.
  destruct (prev_gray self) as [img_old|] eqn:Hprev;
    [|by unfold update_tracks in Hrun; rewrite Hprev in Hrun].
  destruct (wf_latest_points self Hwf) as [points_pld Hpld].
  destruct (back_tracking img_old frame points_pld)
    as [points_new point_valid] eqn:Hbt.
  destruct (update_tracks_inv _ _ _ _ _ _ _ Hwf Hprev Hpld Hbt Hrun)
    as (_ & Htl' & Hdi' & Hfi' & Hpg' & _).
  repeat split; try congruence.
  - by eapply update_tracks_wf.
  - eapply update_tracks_wf; [|done]. done.
  - by eapply update_tracks_within_bounds.
Qed.

Lemma extend_stage_stable frame self self1 :
  stable self → extend_stage frame self = Some self1 →
  stable self1 ∧ prev_gray self1 = prev_gray self ∧
  frame_idx self1 = frame_idx self.
Proof.
  intros Hst. unfold extend_stage. case_bool_decide.
  - by apply update_tracks_stable.
  - by intros [= <-].
Qed.

Lemma get_new_tracks_stable frame self self' :
  stable self → get_new_tracks frame self = Some self' →
  stable self' ∧ prev_gray self' = prev_gray self ∧
  frame_idx self' = frame_idx self.
Proof.
  intros (Hwf & Hb & Htl & Hdi) Hrun.
  apply get_new_tracks_inv in Hrun as (newest & centres & _ & _ & Hcase).
  destruct (goodFeaturesToTrack _ _ _) as [pts|]; subst self'; [|done].
  destruct (foldl_seed pts self) as (_ & _ & Htl' & Hdi' & Hfi' & Hpg').
  split; [|done]. split; [by apply foldl_seed_wf|].
  split; [by apply foldl_seed_within_bounds|]. split; congruence.
Qed.

Lemma seed_stage_stable frame self self2 :
  stable self → seed_stage frame self = Some self2 →
  stable self2 ∧ prev_gray self2 = prev_gray self ∧
  frame_idx self2 = frame_idx self.
Proof.
  intros Hst. unfold seed_stage. case_bool_decide; [done|].
  case_bool_decide.
  - by apply get_new_tracks_stable.
  - by intros [= <-].
Qed.

Lemma end_of_frame_stable frame self :
  stable self →
  stable (end_of_frame frame self) ∧ ready (end_of_frame frame self).
Proof. intros Hst. split; [exact Hst|]. intros _. by eexists. Qed.

Lemma run_step_stable frame self self' :
  stable self → run_step frame self = Some self' →
  stable self' ∧ ready self' ∧
  frame_idx self' = frame_idx self + 1 ∧
  prev_gray self' = Some (cvtColor frame).
Proof.
  intros Hst. unfold run_step.
  destruct (extend_stage (cvtColor frame) self) as [self1|] eqn:Hext;
    [|done]. simpl.
  destruct (seed_stage (cvtColor frame) self1) as [self2|] eqn:Hseed;
    [|done]. simpl. intros [= <-].
  destruct (extend_stage_stable _ _ _ Hst Hext) as (Hst1 & _ & Hidx1).
  destruct (seed_stage_stable _ _ _ Hst1 Hseed) as (Hst2 & _ & Hidx2).
  destruct (end_of_frame_stable (cvtColor frame) self2 Hst2) as [? ?].
  split; [done|]. split; [done|]. split; [simpl; lia|done].
Qed.

Lemma run_frames_stable frames :
  ∀ self self',
    stable self → ready self → run_frames frames self = Some self' →
    stable self' ∧ ready self' ∧
    frame_idx self' = frame_idx self + Z.of_nat (length frames) ∧
    prev_gray self' =
      match last frames with
      | Some frame => Some (cvtColor frame)
      | None => prev_gray self
      end.
Proof.
  induction frames as [|frame frames IH]; intros self self' Hst Hready Hrun.
  - injection Hrun as <-. split; [done|]. split; [done|].
    split; [simpl; lia|done].
  - cbn [run_frames] in Hrun.
    destruct (run_step frame self) as [self1|] eqn:Hstep; [|done].
    simpl in Hrun.
    destruct (run_step_stable _ _ _ Hst Hstep)
      as (Hst1 & Hready1 & Hidx1 & Hprev1).
    destruct (IH self1 self' Hst1 Hready1 Hrun)
      as (Hst' & Hready' & Hidx' & Hprev').
    split; [done|]. split; [done|]. split.
    + rewrite Hidx', Hidx1. simpl length. lia.
    + rewrite Hprev', last_cons. by destruct (last frames).
Qed.

(** Every state of a run is well formed. *)
Lemma run_frames_wf frames self :
  run_frames frames init = Some self → wf self.
Proof.
  intros Hrun.
  destruct (run_frames_stable frames init self) as (Hst & _);
    [apply init_stable..|done|]. apply Hst.
Qed.

End Run.

(** ** The threshold test on the larger of two differences *)

Lemma compare_cont_Eq p q : PosDef.Pos.compare_cont Eq p q = Pos.compare p q.
Proof. reflexivity. Qed.

Ltac split_compare :=
  repeat match goal with
  | |- context [Z.compare ?x ?y] =>
      destruct (Z.compare_spec x y);
      cbn [CompOpp orb andb SpecFloat.SFcompare]
  | |- context [PosDef.Pos.compare_cont Eq ?x ?y] =>
      rewrite (compare_cont_Eq x y);
      destruct (Pos.compare_spec x y);
      cbn [CompOpp orb andb SpecFloat.SFcompare]
  end.

Lemma F32_one_eq : F32.one = SpecFloat.S754_finite false 8388608 (-23).
Proof. vm_compute. reflexivity. Qed.

(** The larger of two values is below a positive bound exactly when both
    are; a NaN on either side fails the test. *)
Lemma F32_max_below (a b : F32.t) M E :
  F32.ltb (F32.max a b) (SpecFloat.S754_finite false M E) =
  F32.ltb a (SpecFloat.S754_finite false M E) &&
  F32.ltb b (SpecFloat.S754_finite false M E).
Proof.
  unfold F32.max, F32.leb, F32.ltb, SpecFloat.SFleb, SpecFloat.SFltb.
  destruct a as [[|]|[|]| |[|] ma ea], b as [[|]|[|]| |[|] mb eb];
    cbn [SpecFloat.SFcompare F32.is_nan orb andb]; try reflexivity.
  all: split_compare; try reflexivity; try lia.
Qed.

Lemma below_threshold_axes (p q : Point) :
  below_threshold (error_term_of p q) =
  F32.ltb (F32.abs (F32.sub (fst p) (fst q))) F32.one &&
  F32.ltb (F32.abs (F32.sub (snd p) (snd q))) F32.one.
Proof.
  unfold below_threshold, error_term_of. rewrite F32_one_eq.
  apply F32_max_below.
Qed.

(** ** Conversion to int32 *)

Lemma to_int32_Some (a : F32.t) (z : Z) :
  F32.to_int32 a = Some z ↔
  F32.is_truncation a z ∧ F32.INT_MIN <= z <= F32.INT_MAX.
Proof.
  destruct a as [s|s| |s m e]; simpl.
  - split.
    + intros [= <-]. split; [done|]. by vm_compute.
    + by intros [-> _].
  - split; [done|by intros [[] _]].
  - split; [done|by intros [[] _]].
  - set (n := Z.pos m * 2 ^ Z.max e 0).
    set (d := 2 ^ Z.max (- e) 0).
    set (v := if 0 <=? e then Z.shiftl (Z.pos m) e
              else Z.shiftr (Z.pos m) (- e)).
    assert (Hd : 0 < d) by (apply Z.pow_pos_nonneg; lia).
    assert (Hv : 0 <= v ∧ v * d <= n < (v + 1) * d).
    { unfold v, n, d. destruct (Z.leb_spec 0 e) as [He|He].
      - rewrite Z.shiftl_mul_pow2 by done.
        rewrite (Z.max_l e 0), (Z.max_r (- e) 0) by lia.
        assert (0 < 2 ^ e) by (apply Z.pow_pos_nonneg; lia).
        change (2 ^ 0) with 1. nia.
      - rewrite Z.shiftr_div_pow2 by lia.
        rewrite (Z.max_r e 0), (Z.max_l (- e) 0) by lia.
        change (2 ^ 0) with 1. rewrite Z.mul_1_r.
        assert (Hp : 0 < 2 ^ (- e)) by (apply Z.pow_pos_nonneg; lia).
        pose proof (Z.div_pos (Z.pos m) (2 ^ (- e)) ltac:(lia) Hp).
        pose proof (Z.mul_div_le (Z.pos m) (2 ^ (- e)) Hp).
        pose proof (Z.mul_succ_div_gt (Z.pos m) (2 ^ (- e)) Hp).
        nia. }
    destruct Hv as [Hv0 Hv].
    assert (Huniq : ∀ w, 0 <= w → w * d <= n < (w + 1) * d → w = v) by nia.
    split.
    + destruct (_ && _) eqn:Hrange; [|done]. intros [= <-].
      apply andb_true_iff in Hrange as [H1 H2].
      apply Z.leb_le in H1, H2. split; [|done].
      destruct s.
      * rewrite Z.abs_opp, Z.abs_eq by done. split; [done|lia].
      * rewrite Z.abs_eq by done. done.
    + intros [[Hz Hs] Hrange].
      pose proof (Huniq (Z.abs z) (Z.abs_nonneg z) Hz) as Habs.
      assert ((if s then - v else v) = z) as -> by (destruct s; lia).
      destruct Hrange as [H1 H2].
      apply Z.leb_le in H1, H2. by rewrite H1, H2.
Qed.

Lemma np_int32_Some (p : Point) (c : Z * Z) :
  np_int32 p = Some c ↔
  F32.to_int32 (fst p) = Some (fst c) ∧ F32.to_int32 (snd p) = Some (snd c).
Proof.
  unfold np_int32. destruct c as [cx cy]. simpl.
  destruct (F32.to_int32 (fst p)) as [x|]; simpl; [|by split; [|intros []]].
  destruct (F32.to_int32 (snd p)) as [y|]; simpl; [|by split; [|intros []]].
  split; [by intros [= -> ->]|by intros [[= ->] [= ->]]].
Qed.

(** ** The example scene honours the contracts *)

Lemma well_separated_snoc d (acc : list Point) p :
  well_separated d (Some <$> acc) →
  forallb (λ q, negb (Toy.near d p q)) acc = true →
  well_separated d (Some <$> (acc ++ [p])).
Proof.
  intros Hsep Hall i j p1 p2 Hne Hi Hj.
  apply list_lookup_fmap_Some in Hi as (p1' & [= <-] & Hi).
  apply list_lookup_fmap_Some in Hj as (p2' & [= <-] & Hj).
  assert (Hfar : ∀ q, q ∈ acc →
            closer_than d p q = false ∧ closer_than d q p = false).
  { intros q Hq. rewrite forallb_forall in Hall.
    specialize (Hall q (proj1 (list_elem_of_In _ _) Hq)).
    apply negb_true_iff, orb_false_iff in Hall. done. }
  apply lookup_app_Some in Hi as [Hi|[Hli Hi]];
    apply lookup_app_Some in Hj as [Hj|[Hlj Hj]].
  - apply (Hsep i j); [done|..]; by rewrite list_lookup_fmap, ?Hi, ?Hj.
  - apply list_lookup_singleton_Some in Hj as [_ <-].
    apply Hfar. by eapply list_elem_of_lookup_2.
  - apply list_lookup_singleton_Some in Hi as [_ <-].
    apply Hfar. by eapply list_elem_of_lookup_2.
  - apply list_lookup_singleton_Some in Hi as [Hi _].
    apply list_lookup_singleton_Some in Hj as [Hj _]. lia.
Qed.

Lemma select_separated d cands :
  ∀ acc, well_separated d (Some <$> acc) →
         well_separated d (Some <$> Toy.select d cands acc).
Proof.
  induction cands as [|p cands IH]; intros acc Hsep; simpl; [done|].
  destruct (forallb _ acc) eqn:Hall; [|by apply IH].
  apply IH. by apply well_separated_snoc.
Qed.

Lemma Toy_detect_spacing st : detector_spacing (cv := Toy.cv st).
Proof.
  intros frame mask prm pts. simpl. unfold Toy.detect.
  pose proof (select_separated (minDistance prm)
                (List.filter (Toy.eligible mask) (Toy.corners frame)) [])
    as Hsel.
  destruct (Toy.select _ _ _) as [|p ps]; [done|].
  intros [= <-]. apply Hsel. intros i j p1 p2 _ Hi. by destruct i.
Qed.

(** ** Runs of the example scene *)

(** A round-trip error of exactly one pixel fails the test, and so does a
    NaN. *)
Example error_of_one_pixel_fails :
  below_threshold (error_term_of (Toy.pt 10 10) (Toy.pt 10 11)) = false ∧
  below_threshold (error_term_of (Toy.pt 10 10) (Toy.pt 10 10)) = true ∧
  below_threshold
    (error_term_of (Toy.pt 10 10) (SpecFloat.S754_nan, F32.of_Z 10)) = false.
Proof. repeat split; reflexivity. Qed.

(** [numpy.int32] truncates toward zero, and raises on NaN and on
    3000000000, which is beyond the int32 range. *)
Example np_int32_truncates :
  np_int32 (SpecFloat.S754_finite false 3 (-1),
            SpecFloat.S754_finite true 3 (-1)) = Some (1, -1) ∧
  np_int32 (SpecFloat.S754_nan, F32.of_Z 10) = None ∧
  np_int32 (F32.of_Z 3000000000, F32.of_Z 10) = None.
Proof. repeat split; reflexivity. Qed.

(** The first frame seeds both corners; in the second the camera has
    moved by one pixel and the right corner is occluded: its track is
    dropped and its list object keeps its single point. *)
Example occluded_track_is_dropped :
  let self := Toy.after true [Toy.two_corners] in
  let self' := Toy.extended true Toy.occluding self in
  contents self = [Some [Toy.pt 10 10]; Some [Toy.pt 30 10]] ∧
  back_tracking (cv := Toy.cv true) Toy.two_corners Toy.occluding
    [Toy.pt 10 10; Toy.pt 30 10]
    = ([Toy.pt 11 10; Toy.pt 31 10], [true; false]) ∧
  tracks self' = [0%nat] ∧
  heap self' = [[Toy.pt 10 10; Toy.pt 11 10]; [Toy.pt 30 10]].
Proof. repeat split; reflexivity. Qed.

(** With a flow that reports every point lost, the track is extended all
    the same. *)
Example lost_track_is_extended :
  let fr := Toy.frame [Toy.pt 10 10] 0 [] in
  (@calcOpticalFlowPyrLK _ (Toy.cv false) fr fr [Toy.pt 10 10] LK_PARAMS).1.2
    = [false] ∧
  contents (Toy.extended false fr (Toy.after false [fr]))
    = [Some [Toy.pt 10 10; Toy.pt 10 10]].
Proof. split; reflexivity. Qed.

(** The sixth frame of the still scene seeds (16, 10) next to the live
    track at (10, 10). *)
Example sixth_frame_seeds_nearby :
  let self := Toy.extended true Toy.second_corner (Toy.after true Toy.still) in
  frame_idx self = 5 ∧
  newest_points (Toy.seeded true Toy.second_corner self)
    = [Some (Toy.pt 10 10); Some (Toy.pt 16 10)] ∧
  closer_than 7 (Toy.pt 10 10) (Toy.pt 16 10) = true.
Proof. repeat split; reflexivity. Qed.

(** After ten frames of panning the track is full; the eleventh drops
    its oldest point. *)
Example eleventh_frame_trims :
  contents (Toy.after true (Toy.panning 9))
    = [Some ((λ x, Toy.pt x 10) <$> [10; 11; 12; 13; 14; 15; 16; 17; 18; 19])] ∧
  contents (Toy.after true (Toy.panning 10))
    = [Some ((λ x, Toy.pt x 10) <$> [11; 12; 13; 14; 15; 16; 17; 18; 19; 20])].
Proof. split; reflexivity. Qed.

(** * The claims *)

(** ** Retention of a track *)

(** Claim C1, as stated, fails: with a flow estimator that reports every
    point lost (status 0) and leaves it where it is, the track seeded in
    the first frame is retained by the extension pass of the second. *)
Lemma lost_points_are_retained :
  ¬ (∀ (image : Type) (cv : CV image) frame (self self' : Tracker image)
       img_old points_pld i l,
       wf self → prev_gray self = Some img_old →
       latest_points self = Some points_pld →
       update_tracks frame self = Some self' →
       tracks self !! i = Some l → l ∈ tracks self' →
       (calcOpticalFlowPyrLK img_old frame points_pld LK_PARAMS).1.2 !! i
         = Some true).
Proof.
  intros Hclaim.
  pose (fr := Toy.frame [Toy.pt 10 10] 0 []).
  specialize (Hclaim Toy.Scene (Toy.cv false) fr (Toy.after false [fr])
                (Toy.extended false fr (Toy.after false [fr]))
                fr [Toy.pt 10 10] 0%nat 0%nat).
  assert (Hlost : [false] !! 0%nat = Some true); [|done].
  apply Hclaim.
  - apply (run_frames_wf (cv := Toy.cv false) [fr]). reflexivity.
  - reflexivity.
  - reflexivity.
  - reflexivity.
  - reflexivity.
  - vm_compute. left.
Qed.

(** Claim C1, amended: a track is retained, with the new point appended,
    exactly when the larger per-axis absolute difference between its
    source point and the backward-inferred source point is below 1 in
    float32 arithmetic; the status flags of the two flow steps are not
    consulted. *)
Theorem retained_iff_round_trip_below_one {image : Type} {cv : CV image}
    frame (self self' : Tracker image) img_old points_pld i l :
  wf self → prev_gray self = Some img_old →
  latest_points self = Some points_pld →
  update_tracks frame self = Some self' →
  tracks self !! i = Some l →
  let points_new :=
    (calcOpticalFlowPyrLK img_old frame points_pld LK_PARAMS).1.1 in
  let points_old_inferred :=
    (calcOpticalFlowPyrLK frame img_old points_new LK_PARAMS).1.1 in
  ∃ p_old p_new p_inferred,
    latest (heap self) l = Some p_old ∧
    points_pld !! i = Some p_old ∧
    points_new !! i = Some p_new ∧
    points_old_inferred !! i = Some p_inferred ∧
    (l ∈ tracks self' ↔
     F32.ltb (error_term_of p_old p_inferred) F32.one = true) ∧
    (l ∈ tracks self' → latest (heap self') l = Some p_new).
Proof.
  intros Hwf Hprev Hpld Hrun Hl points_new points_old_inferred.
  destruct (latest_points_lookup self points_pld i l Hpld Hl)
    as (track & p_old & Htrack & Hlast & Hp).
  pose proof (latest_points_length self points_pld Hpld) as Hlen.
  assert (Hi : (i < length points_pld)%nat).
  { rewrite Hlen. by eapply lookup_lt_Some. }
  pose proof (update_tracks_nonempty _ _ _ _ Hrun Hpld) as Hne.
  destruct (lookup_lt_is_Some_2 points_new i) as [p_new Hnew].
  { unfold points_new. by rewrite calcOpticalFlowPyrLK_rows. }
  destruct (lookup_lt_is_Some_2 points_old_inferred i) as [p_inf Hinf].
  { unfold points_old_inferred, points_new.
    rewrite calcOpticalFlowPyrLK_rows by (by apply flow_nonempty).
    by rewrite calcOpticalFlowPyrLK_rows. }
  exists p_old, p_new, p_inf.
  assert (Hbt : back_tracking img_old frame points_pld =
            (points_new, below_threshold <$>
               zip_with error_term_of points_pld points_old_inferred))
    by apply back_tracking_eq.
  destruct (update_tracks_inv _ _ _ _ _ _ _ Hwf Hprev Hpld Hbt Hrun)
    as (_ & _ & _ & _ & _ & _ & Hkeep & Hgood & _).
  assert (Hverdict :
            (below_threshold <$>
               zip_with error_term_of points_pld points_old_inferred) !! i =
            Some (below_threshold (error_term_of p_old p_inf))).
  { apply (back_tracking_verdict _ _ _ _ _ _ _ Hbt). eauto. }
  assert (Hiff : l ∈ tracks self' ↔
                 F32.ltb (error_term_of p_old p_inf) F32.one = true).
  { rewrite (Hkeep i l Hl). rewrite Hverdict. split.
    - intros (xy & _ & [= Hg]). done.
    - intros Hg. exists p_new. split; [done|].
      unfold below_threshold. by rewrite Hg. }
  repeat split; try done; try apply Hiff.
  - unfold latest. by rewrite Htrack.
  - intros Hin. apply Hiff in Hin.
    destruct (Hgood i l p_new Hl Hnew) as (track' & Htrack0 & Htrack').
    { rewrite Hverdict. unfold below_threshold. by rewrite Hin. }
    assert (track' = track) as -> by congruence.
    unfold latest. rewrite Htrack'. simpl.
    rewrite append_trim_drop; [apply last_snoc|].
    intros ->. done.
Qed.

Lemma retained_iff_round_trip_below_one_witness :
  ∃ p_old p_new p_inferred,
    latest (heap (Toy.after true [Toy.two_corners])) 0%nat = Some p_old ∧
    [Toy.pt 10 10; Toy.pt 30 10] !! 0%nat = Some p_old ∧
    [Toy.pt 11 10; Toy.pt 31 10] !! 0%nat = Some p_new ∧
    [Toy.pt 10 10; Toy.pt 33 10] !! 0%nat = Some p_inferred ∧
    (0%nat ∈ tracks (Toy.extended true Toy.occluding
                      (Toy.after true [Toy.two_corners])) ↔
     F32.ltb (error_term_of p_old p_inferred) F32.one = true) ∧
    (0%nat ∈ tracks (Toy.extended true Toy.occluding
                      (Toy.after true [Toy.two_corners])) →
     latest (heap (Toy.extended true Toy.occluding
                     (Toy.after true [Toy.two_corners]))) 0%nat
       = Some p_new).
Proof.
  apply (retained_iff_round_trip_below_one (cv := Toy.cv true)
           Toy.occluding (Toy.after true [Toy.two_corners])
           (Toy.extended true Toy.occluding (Toy.after true [Toy.two_corners]))
           Toy.two_corners [Toy.pt 10 10; Toy.pt 30 10] 0%nat 0%nat).
  - apply (run_frames_wf (cv := Toy.cv true) [Toy.two_corners]). reflexivity.
  - reflexivity.
  - reflexivity.
  - reflexivity.
  - reflexivity.
Defined.

(** ** Separation after seeding *)

Lemma newest_points_foldl_seed {image : Type} (self : Tracker image) pts :
  drop (length (tracks self)) (newest_points (foldl seed self pts)) =
  Some <$> pts.
Proof.
  destruct (foldl_seed pts self) as (Htr & Hh & _).
  unfold newest_points. rewrite Htr, Hh, fmap_app, drop_app_length'
    by (by rewrite length_fmap).
  apply list_eq. intros k. rewrite !list_lookup_fmap.
  destruct (pts !! k) as [p|] eqn:Hp; simpl.
  - rewrite (lookup_seq_lt _ _ _ (lookup_lt_Some _ _ _ Hp)). simpl.
    unfold latest. rewrite lookup_app_r by lia.
    replace (length (heap self) + k - length (heap self))%nat with k by lia.
    by rewrite list_lookup_fmap, Hp.
  - apply lookup_ge_None in Hp. by rewrite lookup_seq_ge.
Qed.

(** Claim C2, as stated, fails even for a detector that keeps its results
    7 pixels apart.  After five frames of a still scene there is one live
    track at (10, 10); in the sixth frame, a multiple of 5, the mask only
    excludes the disc of radius 5 around it, so the corner at (16, 10) is
    seeded 6 pixels away. *)
Lemma seeding_leaves_close_points :
  ¬ (∀ (image : Type) (cv : CV image) frame (self self' : Tracker image),
       detector_spacing → wf self →
       get_new_tracks frame self = Some self' →
       well_separated (minDistance FEATURE_PARAMS) (newest_points self')).
Proof.
  intros Hclaim.
  pose (self := Toy.extended true Toy.second_corner (Toy.after true Toy.still)).
  specialize (Hclaim Toy.Scene (Toy.cv true) Toy.second_corner self
                (Toy.seeded true Toy.second_corner self)
                (Toy_detect_spacing true)).
  assert (Hfar : closer_than 7 (Toy.pt 10 10) (Toy.pt 16 10) = false);
    [|done].
  apply (Hclaim
           (update_tracks_wf (cv := Toy.cv true) Toy.second_corner
              (Toy.after true Toy.still) self
              (run_frames_wf (cv := Toy.cv true) Toy.still _ eq_refl) eq_refl)
           eq_refl 0%nat 1%nat); [lia|reflexivity..].
Qed.

(** Claim C2, amended: immediately after a seeding pass, no two of the
    newly seeded points are closer than 7 pixels, provided the detector
    keeps its results [minDistance] apart; the newest points of earlier
    tracks are only shielded by the discs of radius 5 in the mask. *)
Theorem seeded_points_well_separated {image : Type} {cv : CV image}
    frame (self self' : Tracker image) :
  detector_spacing → get_new_tracks frame self = Some self' →
  well_separated 7 (drop (length (tracks self)) (newest_points self')).
Proof.
  intros Hspacing Hrun.
  apply get_new_tracks_inv in Hrun as (newest & centres & Hnewest & Hcentres & Hcase).
  destruct (goodFeaturesToTrack _ _ _) as [pts|] eqn:Hdetect; subst self'.
  - rewrite newest_points_foldl_seed.
    apply (Hspacing _ _ _ _ Hdetect).
  - unfold newest_points.
    rewrite drop_ge by (by rewrite length_fmap).
    intros i j p q _ Hi. by rewrite lookup_nil in Hi.
Qed.

Lemma seeded_points_well_separated_witness :
  well_separated 7
    (drop (length (tracks (Toy.after true [])))
       (newest_points (Toy.seeded true Toy.two_corners (Toy.after true [])))).
Proof.
  apply (seeded_points_well_separated (cv := Toy.cv true) Toy.two_corners).
  - apply Toy_detect_spacing.
  - reflexivity.
Defined.

(** ** Track lengths *)

(** Claim C3: in every state a run returns, and whenever the next loop
    iteration gets past [update_tracks] and past [get_new_tracks], every
    live track holds at least 1 and at most 10 points. *)
Theorem track_lengths_within_bounds {image : Type} {cv : CV image}
    (frames : list image) (self : Tracker image) :
  run_frames frames init = Some self →
  within_bounds self ∧
  ∀ frame_gray self1,
    extend_stage frame_gray self = Some self1 →
    within_bounds self1 ∧
    ∀ self2,
      seed_stage frame_gray self1 = Some self2 →
      within_bounds self2 ∧ within_bounds (end_of_frame frame_gray self2).
Proof.
  intros Hrun.
  destruct (run_frames_stable frames init self) as (Hst & _);
    [apply init_stable..|done|].
  split; [apply Hst|]. intros frame_gray self1 Hext.
  destruct (extend_stage_stable _ _ _ Hst Hext) as (Hst1 & _).
  split; [apply Hst1|]. intros self2 Hseed.
  destruct (seed_stage_stable _ _ _ Hst1 Hseed) as (Hst2 & _).
  split; apply Hst2.
Qed.

Lemma track_lengths_within_bounds_witness :
  within_bounds (Toy.after true (Toy.panning 10)) ∧
  ∀ frame_gray self1,
    extend_stage (cv := Toy.cv true) frame_gray
      (Toy.after true (Toy.panning 10)) = Some self1 →
    within_bounds self1 ∧
    ∀ self2,
      seed_stage (cv := Toy.cv true) frame_gray self1 = Some self2 →
      within_bounds self2 ∧ within_bounds (end_of_frame frame_gray self2).
Proof.
  apply (track_lengths_within_bounds (cv := Toy.cv true) (Toy.panning 10)).
  reflexivity.
Defined.

(** Claim C4: when a track holds 10 points and the window bound is 10, a
    successful extension appends the new point and deletes the oldest
    one: the track is its old points without the first, in order,
    followed by the new point, and holds 10 points again. *)
Theorem full_track_drops_oldest {image : Type} {cv : CV image}
    frame (self self' : Tracker image) img_old points_pld points_new
    point_valid i l (track : list Point) :
  wf self → prev_gray self = Some img_old →
  latest_points self = Some points_pld →
  back_tracking img_old frame points_pld = (points_new, point_valid) →
  update_tracks frame self = Some self' →
  track_len self = 10 →
  tracks self !! i = Some l → heap self !! l = Some track →
  length track = 10%nat →
  l ∈ tracks self' →
  ∃ xy, points_new !! i = Some xy ∧
        heap self' !! l = Some (drop 1 track ++ [xy]) ∧
        length (drop 1 track ++ [xy]) = 10%nat.
Proof.
  intros Hwf Hprev Hpld Hbt Hrun Htl Hl Htrack Hlen Hin.
  destruct (update_tracks_inv _ _ _ _ _ _ _ Hwf Hprev Hpld Hbt Hrun)
    as (_ & _ & _ & _ & _ & _ & Hkeep & Hgood & _).
  apply (Hkeep i l Hl) in Hin as (xy & Hxy & Hg).
  destruct (Hgood i l xy Hl Hxy Hg) as (track' & Htrack0 & Htrack').
  assert (track' = track) as -> by congruence.
  exists xy. split; [done|].
  rewrite Htrack', Htl, append_trim_drop by (by destruct track).
  rewrite bool_decide_eq_true_2 by lia.
  split; [done|]. rewrite length_app, length_drop. simpl. lia.
Qed.

Lemma full_track_drops_oldest_witness :
  ∃ xy, [Toy.pt 20 10] !! 0%nat = Some xy ∧
    heap (Toy.extended true (Toy.frame [] 10 [])
            (Toy.after true (Toy.panning 9))) !! 0%nat =
      Some (drop 1 ((λ x, Toy.pt x 10) <$> [10; 11; 12; 13; 14; 15; 16; 17; 18; 19])
            ++ [xy]) ∧
    length (drop 1 ((λ x, Toy.pt x 10) <$> [10; 11; 12; 13; 14; 15; 16; 17; 18; 19])
            ++ [xy]) = 10%nat.
Proof.
  apply (full_track_drops_oldest (cv := Toy.cv true)
           (Toy.frame [] 10 []) (Toy.after true (Toy.panning 9))
           (Toy.extended true (Toy.frame [] 10 [])
              (Toy.after true (Toy.panning 9)))
           (Toy.frame [] 9 []) [Toy.pt 19 10] [Toy.pt 20 10] [true]
           0%nat 0%nat).
  - apply (run_frames_wf (cv := Toy.cv true) (Toy.panning 9)). reflexivity.
  - reflexivity.
  - reflexivity.
  - reflexivity.
  - reflexivity.
  - reflexivity.
  - reflexivity.
  - reflexivity.
  - reflexivity.
  - vm_compute. left.
Defined.

(** ** Order of the points *)

(** Claim C5: the points handed to the flow estimator are the last points
    of the live tracks, in list order.  When the pass returns, every track
    whose row passes stays live and is its old point sequence, without
    its first point if the window was full, followed by the new point
    computed for its own row; the live list is a sub-list of the old one
    and holds nothing else. *)
Theorem extension_appends_to_latest {image : Type} {cv : CV image}
    frame (self self' : Tracker image) img_old points_pld points_new
    point_valid :
  wf self → prev_gray self = Some img_old →
  latest_points self = Some points_pld →
  back_tracking img_old frame points_pld = (points_new, point_valid) →
  update_tracks frame self = Some self' →
  Forall2 (λ l p, ∃ track, heap self !! l = Some track ∧
                           last track = Some p)
          (tracks self) points_pld ∧
  points_new =
    (calcOpticalFlowPyrLK img_old frame points_pld LK_PARAMS).1.1 ∧
  tracks self' `sublist_of` tracks self ∧
  (∀ i l, tracks self !! i = Some l → point_valid !! i = Some true →
     l ∈ tracks self' ∧
     ∃ track xy,
       heap self !! l = Some track ∧ points_new !! i = Some xy ∧
       heap self' !! l =
         Some (drop (if bool_decide
                          (track_len self < Z.of_nat (length track) + 1)
                     then 1%nat else 0%nat) track ++ [xy])) ∧
  (∀ l, l ∈ tracks self' →
     ∃ i track xy k,
       tracks self !! i = Some l ∧ heap self !! l = Some track ∧
       points_pld !! i = last track ∧ points_new !! i = Some xy ∧
       point_valid !! i = Some true ∧
       heap self' !! l = Some (drop k track ++ [xy])).
Proof.
  intros Hwf Hprev Hpld Hbt Hrun.
  pose proof (update_tracks_nonempty _ _ _ _ Hrun Hpld) as Hne.
  destruct (back_tracking_length _ _ _ _ _ Hne Hbt) as [Hlen1 _].
  pose proof (latest_points_length self points_pld Hpld) as Hlen.
  destruct (update_tracks_inv _ _ _ _ _ _ _ Hwf Hprev Hpld Hbt Hrun)
    as (Htr & _ & _ & _ & _ & _ & Hkeep & Hgood & _).
  assert (Hext : ∀ i l xy, tracks self !! i = Some l →
            points_new !! i = Some xy → point_valid !! i = Some true →
            ∃ track, heap self !! l = Some track ∧
              points_pld !! i = last track ∧
              heap self' !! l =
                Some (drop (if bool_decide
                                 (track_len self
                                  < Z.of_nat (length track) + 1)
                            then 1%nat else 0%nat) track ++ [xy])).
  { intros i l xy Hi Hxy Hg.
    destruct (Hgood i l xy Hi Hxy Hg) as (track & Htrack & Htrack').
    destruct (latest_points_lookup self points_pld i l Hpld Hi)
      as (track0 & p & Htrack0 & Hlast & Hp).
    assert (track0 = track) as -> by congruence.
    exists track. split; [done|]. split; [by rewrite Hp, Hlast|].
    rewrite Htrack'. f_equal. apply append_trim_drop. intros ->. done. }
  split; [|split; [|split; [|split]]].
  - apply mapM_Some in Hpld. eapply Forall2_impl; [exact Hpld|].
    intros l p Hlatest. unfold latest in Hlatest.
    destruct (heap self !! l) as [track|]; [|done]. by exists track.
  - rewrite back_tracking_eq in Hbt. simpl in Hbt. by injection Hbt as <- _.
  - rewrite Htr. etrans; [apply kept_sublist|apply rows_sublist].
  - intros i l Hi Hg.
    destruct (lookup_lt_is_Some_2 points_new i) as [xy Hxy].
    { rewrite Hlen1, Hlen. by eapply lookup_lt_Some. }
    split; [apply (Hkeep i l Hi); eauto|].
    destruct (Hext i l xy Hi Hxy Hg) as (track & Htrack & _ & Htrack').
    by exists track, xy.
  - intros l Hl. rewrite Htr in Hl.
    apply elem_of_kept in Hl as (xy & Hin).
    apply elem_of_rows in Hin as (i & Hi & Hxy & Hg).
    destruct (Hext i l xy Hi Hxy Hg) as (track & Htrack & Hlast & Htrack').
    exists i, track, xy. eexists. repeat split; done.
Qed.

Lemma extension_appends_to_latest_witness :
  let self :=
    mkTracker 10 5 [0%nat; 1%nat] 1 (Some Toy.two_corners)
      [[Toy.pt 10 10]; [Toy.pt 30 10]] in
  let self' :=
    mkTracker 10 5 [0%nat] 1 (Some Toy.two_corners)
      [[Toy.pt 10 10; Toy.pt 11 10]; [Toy.pt 30 10]] in
  let points_pld := [Toy.pt 10 10; Toy.pt 30 10] in
  let points_new := [Toy.pt 11 10; Toy.pt 31 10] in
  let point_valid := [true; false] in
  Forall2 (λ l p, ∃ track, heap self !! l = Some track ∧
                           last track = Some p)
          (tracks self) points_pld ∧
  points_new =
    (@calcOpticalFlowPyrLK _ (Toy.cv true)
       Toy.two_corners Toy.occluding points_pld LK_PARAMS).1.1 ∧
  tracks self' `sublist_of` tracks self ∧
  (∀ i l, tracks self !! i = Some l → point_valid !! i = Some true →
     l ∈ tracks self' ∧
     ∃ track xy,
       heap self !! l = Some track ∧ points_new !! i = Some xy ∧
       heap self' !! l =
         Some (drop (if bool_decide
                          (track_len self < Z.of_nat (length track) + 1)
                     then 1%nat else 0%nat) track ++ [xy])) ∧
  (∀ l, l ∈ tracks self' →
     ∃ i track xy k,
       tracks self !! i = Some l ∧ heap self !! l = Some track ∧
       points_pld !! i = last track ∧ points_new !! i = Some xy ∧
       point_valid !! i = Some true ∧
       heap self' !! l = Some (drop k track ++ [xy])).
Proof.
  apply (extension_appends_to_latest (cv := Toy.cv true) Toy.occluding
           (mkTracker 10 5 [0%nat; 1%nat] 1 (Some Toy.two_corners)
              [[Toy.pt 10 10]; [Toy.pt 30 10]])
           (mkTracker 10 5 [0%nat] 1 (Some Toy.two_corners)
              [[Toy.pt 10 10; Toy.pt 11 10]; [Toy.pt 30 10]])
           Toy.two_corners).
  - apply (run_frames_wf (cv := Toy.cv true) [Toy.two_corners]). reflexivity.
  - reflexivity.
  - reflexivity.
  - reflexivity.
  - reflexivity.
Defined.

(** ** The seeding pass *)



(** Claim C9: [get_new_tracks] leaves every list object of the store, in
    particular every live track, as it was, keeps the live tracks at
    their positions, only appends references to fresh objects, and
    changes nothing at all when the detector returns nothing. *)
Theorem seeding_preserves_existing_tracks {image : Type} {cv : CV image}
    frame (self self' : Tracker image) :
  get_new_tracks frame self = Some self' →
  (∃ new, tracks self' = tracks self ++ new ∧
          Forall (λ l, (length (heap self) ≤ l)%nat) new) ∧
  (∀ i l, tracks self !! i = Some l →
     tracks self' !! i = Some l ∧ is_Some (heap self !! l) ∧
     heap self' !! l = heap self !! l) ∧
  (∀ l, (l < length (heap self))%nat → heap self' !! l = heap self !! l) ∧
  (∀ newest centres,
     latest_points self = Some newest →
     mapM np_int32 newest = Some centres →
     let found :=
       goodFeaturesToTrack frame (build_mask frame centres) FEATURE_PARAMS in
     found = None ∨ found = Some [] → self' = self).
Proof.
  intros Hrun.
  destruct (get_new_tracks_inv frame self self' Hrun)
    as (newest & centres & Hnewest & Hcentres & Hcase).
  assert (Hshape : ∃ pts, tracks self' =
                     tracks self ++ seq (length (heap self)) (length pts) ∧
                   heap self' = heap self ++ ((λ p, [p]) <$> pts)).
  { destruct (goodFeaturesToTrack _ _ _) as [pts|]; subst self'.
    - exists pts. by destruct (foldl_seed pts self) as (-> & -> & _).
    - exists []. simpl. by rewrite !app_nil_r. }
  destruct Hshape as (pts & Htr & Hh).
  assert (Hold : ∀ l, (l < length (heap self))%nat →
                      heap self' !! l = heap self !! l).
  { intros l Hlt. rewrite Hh. by apply lookup_app_l. }
  split; [|split; [|split; [done|]]].
  - exists (seq (length (heap self)) (length pts)). split; [done|].
    apply Forall_forall. intros l Hl. apply elem_of_seq in Hl. lia.
  - intros i l Hl.
    destruct (latest_points_lookup self newest i l Hnewest Hl)
      as (track & p & Htrack & _).
    split; [|split].
    + rewrite Htr. apply lookup_app_l_Some. done.
    + by rewrite Htrack.
    + apply Hold. by eapply lookup_lt_Some.
  - intros newest' centres' Hnewest' Hcentres' found Hfound.
    assert (newest' = newest) as -> by congruence.
    assert (centres' = centres) as -> by congruence.
    unfold found in Hfound. destruct Hfound as [Hnone|Hempty].
    + by rewrite Hnone in Hcase.
    + by rewrite Hempty in Hcase.
Qed.

Lemma seeding_preserves_existing_tracks_witness :
  let self := Toy.after true (replicate 5 Toy.two_corners) in
  let self' := Toy.seeded true (Toy.frame [Toy.pt 50 50] 0 []) self in
  (∃ new, tracks self' = tracks self ++ new ∧
          Forall (λ l, (length (heap self) ≤ l)%nat) new) ∧
  (∀ i l, tracks self !! i = Some l →
     tracks self' !! i = Some l ∧ is_Some (heap self !! l) ∧
     heap self' !! l = heap self !! l) ∧
  (∀ l, (l < length (heap self))%nat → heap self' !! l = heap self !! l) ∧
  (∀ newest centres,
     latest_points self = Some newest →
     mapM np_int32 newest = Some centres →
     let found :=
       @goodFeaturesToTrack _ (Toy.cv true) (Toy.frame [Toy.pt 50 50] 0 [])
         (build_mask (cv := Toy.cv true) (Toy.frame [Toy.pt 50 50] 0 [])
            centres)
         FEATURE_PARAMS in
     found = None ∨ found = Some [] → self' = self).
Proof.
  apply (seeding_preserves_existing_tracks (cv := Toy.cv true)
           (Toy.frame [Toy.pt 50 50] 0 [])
           (Toy.after true (replicate 5 Toy.two_corners))).
  reflexivity.
Defined.

(** ** Failing rows *)

(** Claim C7 says that the extension pass never aborts the frame.  The
    loop hands the float coordinates of every passing row to [cv2.circle]
    (line 99), where [get_new_tracks] converts them with [np.int32] first
    (lines 113-114).  With a binding that requires integer centres the
    pass raises on the first passing row: two corners are seeded in the
    first frame; in the second the right one fails the test and is
    skipped, the left one passes, and neither [update_tracks] nor the run
    returns. *)
Theorem passing_row_aborts_extension_pass :
  let self :=
    mkTracker 10 5 [0%nat; 1%nat] 1 (Some Toy.two_corners)
      [[Toy.pt 10 10]; [Toy.pt 30 10]] in
  run_frames (cv := Toy.strict) [Toy.two_corners] init = Some self ∧
  back_tracking (cv := Toy.strict) Toy.two_corners Toy.occluding
    [Toy.pt 10 10; Toy.pt 30 10]
    = ([Toy.pt 11 10; Toy.pt 31 10], [true; false]) ∧
  update_tracks (cv := Toy.strict) Toy.occluding self = None ∧
  run_frames (cv := Toy.strict) [Toy.two_corners; Toy.occluding] init = None ∧
  update_tracks (cv := Toy.cv true) Toy.occluding self =
    Some (mkTracker 10 5 [0%nat] 1 (Some Toy.two_corners)
            [[Toy.pt 10 10; Toy.pt 11 10]; [Toy.pt 30 10]]).
Proof. repeat split; reflexivity. Qed.

(** Claim C10: a track whose row fails the test is removed from the live
    list and its list object is left exactly as it was. *)
Theorem dropped_track_not_mutated {image : Type} {cv : CV image}
    frame (self self' : Tracker image) img_old points_pld points_new
    point_valid i l :
  wf self → prev_gray self = Some img_old →
  latest_points self = Some points_pld →
  back_tracking img_old frame points_pld = (points_new, point_valid) →
  update_tracks frame self = Some self' →
  tracks self !! i = Some l → point_valid !! i = Some false →
  (l ∉ tracks self') ∧ heap self' !! l = heap self !! l.
Proof.
  intros Hwf Hprev Hpld Hbt Hrun Hl Hbad.
  destruct (update_tracks_inv _ _ _ _ _ _ _ Hwf Hprev Hpld Hbt Hrun)
    as (_ & _ & _ & _ & _ & _ & Hkeep & _ & Hrest).
  assert (Hout : l ∉ tracks self').
  { intros Hin. apply (Hkeep i l Hl) in Hin as (xy & _ & Hg). congruence. }
  split; [done|]. by apply Hrest.
Qed.

Lemma dropped_track_not_mutated_witness :
  (1%nat ∉ tracks (Toy.extended true Toy.occluding
                     (Toy.after true [Toy.two_corners]))) ∧
  heap (Toy.extended true Toy.occluding (Toy.after true [Toy.two_corners]))
    !! 1%nat = heap (Toy.after true [Toy.two_corners]) !! 1%nat.
Proof.
  apply (dropped_track_not_mutated (cv := Toy.cv true) Toy.occluding
           (Toy.after true [Toy.two_corners])
           (Toy.extended true Toy.occluding (Toy.after true [Toy.two_corners]))
           Toy.two_corners [Toy.pt 10 10; Toy.pt 30 10]
           [Toy.pt 11 10; Toy.pt 31 10] [true; false] 1%nat 1%nat).
  - apply (run_frames_wf (cv := Toy.cv true) [Toy.two_corners]). reflexivity.
  - reflexivity.
  - reflexivity.
  - reflexivity.
  - reflexivity.
  - reflexivity.
  - reflexivity.
Defined.

(** ** Determinism *)

(** Claim C8: the result of the extension pass, as a list of tracks, is a
    function of the previous frame, the current frame, the window bound
    and the live tracks as values; the frame counter, the identities of
    the track objects and the rest of the store do not matter. *)
Theorem update_tracks_deterministic {image : Type} {cv : CV image}
    frame (self_a self_b : Tracker image) :
  wf self_a → wf self_b →
  prev_gray self_a = prev_gray self_b →
  track_len self_a = track_len self_b →
  contents self_a = contents self_b →
  (contents <$> update_tracks frame self_a) =
  (contents <$> update_tracks frame self_b).
Proof.
  intros Hwfa Hwfb Hprev Htl Hcontents.
  destruct (prev_gray self_a) as [img_old|] eqn:Hpa.
  - symmetry in Hprev.
    destruct (wf_contents self_a Hwfa) as [trs Htrs].
    assert (Htrs' : contents self_b = Some <$> trs) by congruence.
    destruct (wf_latest_points self_a Hwfa) as [points_pld Hpld].
    assert (Hpld' : latest_points self_b = Some points_pld).
    { rewrite (latest_points_contents self_b trs Htrs').
      by rewrite <- (latest_points_contents self_a trs Htrs). }
    destruct (back_tracking img_old frame points_pld)
      as [points_new point_valid] eqn:Hbt.
    destruct (decide (points_pld = [])) as [->|Hne].
    + unfold update_tracks. rewrite Hpa, Hprev. simpl.
      by rewrite Hpld, Hpld'.
    + rewrite (update_tracks_value _ _ _ _ _ _ _
                 Hwfa Hpa Hpld Hne Hbt Htrs).
      rewrite (update_tracks_value _ _ _ _ _ _ _
                 Hwfb Hprev Hpld' Hne Hbt Htrs').
      by rewrite Htl.
  - unfold update_tracks. by rewrite Hpa, <- Hprev.
Qed.

Lemma update_tracks_deterministic_witness :
  (contents <$>
     update_tracks (cv := Toy.cv true) Toy.occluding
       (Toy.after true [Toy.two_corners])) =
  (contents <$>
     update_tracks (cv := Toy.cv true) Toy.occluding
       (mkTracker 10 5 [3%nat; 1%nat] 7 (Some Toy.two_corners)
          [[]; [Toy.pt 30 10]; [Toy.pt 0 0]; [Toy.pt 10 10]])).
Proof.
  apply (update_tracks_deterministic (cv := Toy.cv true) Toy.occluding
           (Toy.after true [Toy.two_corners])
           (mkTracker 10 5 [3%nat; 1%nat] 7 (Some Toy.two_corners)
              [[]; [Toy.pt 30 10]; [Toy.pt 0 0]; [Toy.pt 10 10]])).
  - apply (run_frames_wf (cv := Toy.cv true) [Toy.two_corners]). reflexivity.
  - split.
    + apply NoDup_cons. split; [|apply NoDup_singleton].
      intros Hin. apply list_elem_of_singleton in Hin. discriminate.
    + intros l Hl. apply elem_of_cons in Hl as [->|Hl];
        [|apply list_elem_of_singleton in Hl as ->]; eexists; by split.
  - reflexivity.
  - reflexivity.
  - reflexivity.
Defined.

(** * Further properties of the script *)

(** ** The frame counter and the previous frame *)

(** X1: when a run from a fresh tracker has processed its frames, the
    frame counter equals the number of frames and [prev_gray] holds the
    grey version of the last one. *)
Theorem frame_counter_counts_frames {image : Type} {cv : CV image}
    (frames : list image) (self : Tracker image) :
  run_frames frames init = Some self →
  frame_idx self = Z.of_nat (length frames) ∧
  prev_gray self = (cvtColor <$> last frames).
Proof.
  intros Hrun.
  destruct (run_frames_stable frames init self)
    as (_ & _ & Hidx & Hprev); [apply init_stable..|done|].
  split; [by rewrite Hidx|]. rewrite Hprev. by destruct (last frames).
Qed.

Lemma frame_counter_counts_frames_witness :
  frame_idx (Toy.after true (Toy.panning 6)) = 7 ∧
  prev_gray (Toy.after true (Toy.panning 6)) = Some (Toy.frame [] 6 []).
Proof.
  apply (frame_counter_counts_frames (cv := Toy.cv true) (Toy.panning 6)
           (Toy.after true (Toy.panning 6))).
  reflexivity.
Defined.

(** X2: in every state a run returns, the entries of [self.tracks] refer to
    pairwise distinct list objects of the store, so that an [append] or a
    [del] through one entry never shows through another, and the window
    bound and the detection interval are still those of [__init__]. *)
Theorem live_tracks_never_alias {image : Type} {cv : CV image}
    (frames : list image) (self : Tracker image) :
  run_frames frames init = Some self →
  NoDup (tracks self) ∧
  (∀ l, l ∈ tracks self → (l < length (heap self))%nat) ∧
  track_len self = 10 ∧ detect_interval self = 5.
Proof.
  intros Hrun.
  destruct (run_frames_stable frames init self)
    as (([Hnd Hval] & _ & Htl & Hdi) & _); [apply init_stable..|done|].
  repeat split; try done.
  intros l Hl. destruct (Hval l Hl) as (track & Htrack & _).
  by eapply lookup_lt_Some.
Qed.

Lemma live_tracks_never_alias_witness :
  let self := Toy.after true (replicate 6 Toy.two_corners) in
  NoDup (tracks self) ∧
  (∀ l, l ∈ tracks self → (l < length (heap self))%nat) ∧
  track_len self = 10 ∧ detect_interval self = 5.
Proof.
  apply (live_tracks_never_alias (cv := Toy.cv true)
           (replicate 6 Toy.two_corners)
           (Toy.after true (replicate 6 Toy.two_corners))).
  reflexivity.
Defined.

(** X3: on the first frame no flow is computed; the detector is called
    with the mask that is 255 everywhere, and the tracker ends the frame
    with one single-point track per detected point, in detector order,
    or with no track when the detector finds nothing. *)
Theorem first_frame_only_seeds {image : Type} {cv : CV image} (frame : image) :
  let frame_gray := cvtColor frame in
  run_step frame init =
    Some {| track_len := 10;
            detect_interval := 5;
            tracks :=
              match goodFeaturesToTrack frame_gray
                      (fill (zeros_like frame_gray) 255) FEATURE_PARAMS with
              | Some feature_points => seq 0 (length feature_points)
              | None => []
              end;
            frame_idx := 1;
            prev_gray := Some frame_gray;
            heap :=
              match goodFeaturesToTrack frame_gray
                      (fill (zeros_like frame_gray) 255) FEATURE_PARAMS with
              | Some feature_points => (λ xy, [xy]) <$> feature_points
              | None => []
              end |}.
Proof.
  intros frame_gray. unfold run_step, extend_stage, seed_stage. simpl.
  unfold get_new_tracks, latest_points, build_mask. simpl.
  fold frame_gray.
  destruct (goodFeaturesToTrack _ _ _) as [pts|]; simpl; [|done].
  destruct (foldl_seed pts (init (image := image)))
    as (Htr & Hh & Htl & Hdi & Hidx & Hprev).
  unfold end_of_frame. rewrite Htr, Hh, Htl, Hdi, Hidx. done.
Qed.

(** ** When the passes raise *)

Lemma latest_points_Some {image : Type} (self : Tracker image) newest :
  latest_points self = Some newest →
  Forall2 (λ l p, ∃ track, heap self !! l = Some track ∧ last track = Some p)
          (tracks self) newest.
Proof.
  intros Hnewest. apply mapM_Some in Hnewest.
  eapply Forall2_impl; [exact Hnewest|].
  intros l p Hlatest. unfold latest in Hlatest.
  destruct (heap self !! l) as [track|]; [|done]. by exists track.
Qed.

Lemma mapM_np_int32_Some (track : list Point) (line : list (Z * Z)) :
  mapM np_int32 track = Some line →
  Forall2 (λ p c,
             (F32.is_truncation (fst p) (fst c) ∧
              F32.INT_MIN <= fst c <= F32.INT_MAX) ∧
             (F32.is_truncation (snd p) (snd c) ∧
              F32.INT_MIN <= snd c <= F32.INT_MAX))
          track line.
Proof.
  intros Hline. apply mapM_Some in Hline.
  eapply Forall2_impl; [exact Hline|].
  intros p c Hc. apply np_int32_Some in Hc as [Hx Hy].
  by apply to_int32_Some in Hx; apply to_int32_Some in Hy.
Qed.

(** X4: [update_tracks] returns only if [prev_gray] has been assigned,
    there is a live track, every live track holds at least one point,
    [cv2.circle] has accepted the float coordinates of every row that
    passes, every coordinate of every surviving track converts to int32,
    and [cv2.polylines] has accepted the converted tracks. *)
Theorem update_tracks_returns_only_if {image : Type} {cv : CV image}
    frame (self self' : Tracker image) :
  update_tracks frame self = Some self' →
  ∃ img_old points_pld,
    prev_gray self = Some img_old ∧
    tracks self ≠ [] ∧
    Forall2 (λ l p, ∃ track, heap self !! l = Some track ∧
                             last track = Some p)
            (tracks self) points_pld ∧
    (∀ i xy,
       (back_tracking img_old frame points_pld).1 !! i = Some xy →
       (back_tracking img_old frame points_pld).2 !! i = Some true →
       circle_accepts xy 2 (0, 255, 0) (-1) = true) ∧
    ∃ polylines,
      Forall2 (λ l line, ∃ track,
                 heap self' !! l = Some track ∧
                 Forall2 (λ p c,
                            (F32.is_truncation (fst p) (fst c) ∧
                             F32.INT_MIN <= fst c <= F32.INT_MAX) ∧
                            (F32.is_truncation (snd p) (snd c) ∧
                             F32.INT_MIN <= snd c <= F32.INT_MAX))
                         track line)
              (tracks self') polylines ∧
      polylines_accepts polylines false (0, 255, 0) = true.
Proof.
  intros Hrun.
  destruct (prev_gray self) as [img_old|] eqn:Hprev;
    [|by unfold update_tracks in Hrun; rewrite Hprev in Hrun].
  destruct (latest_points self) as [points_pld|] eqn:Hpld;
    [|by unfold update_tracks in Hrun; rewrite Hprev in Hrun; simpl in Hrun;
         rewrite Hpld in Hrun].
  destruct (back_tracking img_old frame points_pld)
    as [points_new point_valid] eqn:Hbt.
  destruct (update_tracks_drawn _ _ _ _ _ _ _ Hprev Hpld Hbt Hrun)
    as (Hne & Hall & polylines & Hpoly & Hacc).
  pose proof (latest_points_length self points_pld Hpld) as Hlen.
  destruct (back_tracking_length _ _ _ _ _ Hne Hbt) as [Hlen1 _].
  exists img_old, points_pld. split; [done|]. split.
  { intros Hnil. rewrite Hnil in Hlen. by destruct points_pld. }
  split; [by apply latest_points_Some|]. split.
  - rewrite Hbt. simpl. intros i xy Hxy Hg.
    destruct (lookup_lt_is_Some_2 (tracks self) i) as [l Hl].
    { rewrite <- Hlen, <- Hlen1. by eapply lookup_lt_Some. }
    eapply (all_accepted_lookup _ _ i l xy Hall). by apply lookup_rows.
  - exists polylines. split; [|done].
    unfold polylines_of in Hpoly. apply mapM_Some in Hpoly.
    eapply Forall2_impl; [exact Hpoly|].
    intros l line Hline. cbv beta in Hline.
    destruct (heap self' !! l) as [track|];
      cbn [mbind option_bind] in Hline; [|done].
    exists track. split; [done|]. by apply mapM_np_int32_Some.
Qed.

Lemma update_tracks_returns_only_if_witness :
  let self := Toy.after true [Toy.two_corners] in
  let self' := Toy.extended true Toy.occluding self in
  ∃ img_old points_pld,
    prev_gray self = Some img_old ∧
    tracks self ≠ [] ∧
    Forall2 (λ l p, ∃ track, heap self !! l = Some track ∧
                             last track = Some p)
            (tracks self) points_pld ∧
    (∀ i xy,
       (back_tracking (cv := Toy.cv true) img_old Toy.occluding
          points_pld).1 !! i = Some xy →
       (back_tracking (cv := Toy.cv true) img_old Toy.occluding
          points_pld).2 !! i = Some true →
       @circle_accepts _ (Toy.cv true) xy 2 (0, 255, 0) (-1) = true) ∧
    ∃ polylines,
      Forall2 (λ l line, ∃ track,
                 heap self' !! l = Some track ∧
                 Forall2 (λ p c,
                            (F32.is_truncation (fst p) (fst c) ∧
                             F32.INT_MIN <= fst c <= F32.INT_MAX) ∧
                            (F32.is_truncation (snd p) (snd c) ∧
                             F32.INT_MIN <= snd c <= F32.INT_MAX))
                         track line)
              (tracks self') polylines ∧
      @polylines_accepts _ (Toy.cv true) polylines false (0, 255, 0) = true.
Proof.
  apply (update_tracks_returns_only_if (cv := Toy.cv true) Toy.occluding
           (Toy.after true [Toy.two_corners])
           (Toy.extended true Toy.occluding
              (Toy.after true [Toy.two_corners]))).
  reflexivity.
Defined.



(** ** Lengths under any window bound *)

Lemma append_trim_length_law tl (track : list Point) xy :
  length (append_trim tl track xy) =
    if bool_decide (tl < Z.of_nat (length track) + 1)
    then length track else S (length track).
Proof.
  unfold append_trim. rewrite length_app. simpl.
  replace (Z.of_nat (length track + 1)) with (Z.of_nat (length track) + 1)
    by lia.
  case_bool_decide; rewrite ?length_drop, length_app; simpl; lia.
Qed.

(** X6: whatever the window bound, an extension never shortens a track
    and deletes at most one point: a surviving track gains one point when
    it held fewer than [track_len] points and keeps its length otherwise.
    A track longer than the bound is therefore never brought back under
    it. *)
Theorem extension_never_shortens {image : Type} {cv : CV image}
    frame (self self' : Tracker image) :
  wf self → update_tracks frame self = Some self' →
  ∀ l, l ∈ tracks self' →
    ∃ track track',
      heap self !! l = Some track ∧ heap self' !! l = Some track' ∧
      (if bool_decide (Z.of_nat (length track) < track_len self)
       then length track' = S (length track)
       else length track' = length track).
Proof.
  intros Hwf Hrun l Hl.
  destruct (prev_gray self) as [img_old|] eqn:Hprev;
    [|by unfold update_tracks in Hrun; rewrite Hprev in Hrun].
  destruct (wf_latest_points self Hwf) as [points_pld Hpld].
  destruct (back_tracking img_old frame points_pld)
    as [points_new point_valid] eqn:Hbt.
  destruct (update_tracks_inv _ _ _ _ _ _ _ Hwf Hprev Hpld Hbt Hrun)
    as (Htr & _ & _ & _ & _ & _ & _ & Hgood & _).
  rewrite Htr in Hl. apply elem_of_kept in Hl as (xy & Hin).
  apply elem_of_rows in Hin as (i & Hi & Hxy & Hg).
  destruct (Hgood i l xy Hi Hxy Hg) as (track & Htrack & Htrack').
  exists track, (append_trim (track_len self) track xy).
  split; [done|]. split; [done|].
  rewrite append_trim_length_law.
  repeat case_bool_decide; try done; lia.
Qed.

Lemma extension_never_shortens_witness :
  ∃ track track',
    heap (Toy.after true (Toy.panning 9)) !! 0%nat = Some track ∧
    heap (Toy.extended true (Toy.frame [] 10 [])
            (Toy.after true (Toy.panning 9))) !! 0%nat = Some track' ∧
    (if bool_decide (Z.of_nat (length track)
                     < track_len (Toy.after true (Toy.panning 9)))
     then length track' = S (length track)
     else length track' = length track).
Proof.
  apply (extension_never_shortens (cv := Toy.cv true) (Toy.frame [] 10 [])
           (Toy.after true (Toy.panning 9))
           (Toy.extended true (Toy.frame [] 10 [])
              (Toy.after true (Toy.panning 9)))).
  - apply (run_frames_wf (cv := Toy.cv true) (Toy.panning 9)). reflexivity.
  - reflexivity.
  - vm_compute. left.
Defined.

(** ** The consistency test on one row *)

(** X7: a row passes the test [error_term < 1] exactly when the absolute
    difference is below 1 on each of the two axes. *)
Theorem row_passes_iff_both_axes_below_one (p_old p_inferred : Point) :
  below_threshold (error_term_of p_old p_inferred) = true ↔
  F32.ltb (F32.abs (F32.sub (fst p_old) (fst p_inferred))) F32.one = true ∧
  F32.ltb (F32.abs (F32.sub (snd p_old) (snd p_inferred))) F32.one = true.
Proof.
  rewrite below_threshold_axes. apply andb_true_iff.
Qed.

Lemma difference_below_one_finite (a b : F32.t) :
  F32.ltb (F32.abs (F32.sub a b)) F32.one = true →
  F32.is_finite a = true ∧ F32.is_finite b = true.
Proof.
  rewrite F32_one_eq.
  destruct a as [sa|[|]| |sa ma ea], b as [sb|[|]| |sb mb eb];
    try (intros _; split; reflexivity);
    try destruct sa; try destruct sb; intros Hlt; vm_compute in Hlt;
    discriminate Hlt.
Qed.

(** X8: a row with a NaN or an infinite coordinate, in the source point or
    in the inferred point, fails the test: such a track is dropped. *)
Theorem row_with_non_finite_coordinate_fails (p_old p_inferred : Point) :
  below_threshold (error_term_of p_old p_inferred) = true →
  F32.is_finite (fst p_old) = true ∧ F32.is_finite (snd p_old) = true ∧
  F32.is_finite (fst p_inferred) = true ∧
  F32.is_finite (snd p_inferred) = true.
Proof.
  rewrite row_passes_iff_both_axes_below_one. intros [Hx Hy].
  apply difference_below_one_finite in Hx as [? ?].
  apply difference_below_one_finite in Hy as [? ?]. done.
Qed.

Lemma row_with_non_finite_coordinate_fails_witness :
  F32.is_finite (fst (Toy.pt 10 10)) = true ∧
  F32.is_finite (snd (Toy.pt 10 10)) = true ∧
  F32.is_finite (fst (Toy.pt 10 10)) = true ∧
  F32.is_finite (snd (Toy.pt 10 10)) = true.
Proof.
  apply (row_with_non_finite_coordinate_fails (Toy.pt 10 10) (Toy.pt 10 10)).
  reflexivity.
Defined.

Lemma F32_sub_diag (a : F32.t) :
  F32.is_finite a = true → F32.sub a a = SpecFloat.S754_zero false.
Proof.
  destruct a as [[|]|s| |s m e]; try done; intros _.
  unfold F32.sub, SpecFloat.SFsub. by rewrite Z.sub_diag.
Qed.

(** X9: a point with finite coordinates that the backward flow maps
    exactly onto itself passes the test. *)
Theorem exact_round_trip_passes (p : Point) :
  F32.is_finite (fst p) = true → F32.is_finite (snd p) = true →
  below_threshold (error_term_of p p) = true.
Proof.
  intros Hx Hy. unfold error_term_of.
  rewrite (F32_sub_diag _ Hx), (F32_sub_diag _ Hy). reflexivity.
Qed.

Lemma exact_round_trip_passes_witness :
  below_threshold (error_term_of (Toy.pt 10 10) (Toy.pt 10 10)) = true.
Proof.
  apply (exact_round_trip_passes (Toy.pt 10 10)); reflexivity.
Defined.

(** ** Passes in which every row fails or every row passes *)

Lemma kept_all_good (ls : list nat) : ∀ (pn : list Point) (pv : list bool),
  length pn = length ls → length pv = length ls →
  Forall (λ g, g = true) pv → kept (zip (zip ls pn) pv) = ls.
Proof.
  induction ls as [|l ls IH]; intros [|xy pn] [|g pv] Hpn Hpv Hall;
    try done.
  apply Forall_cons in Hall as [-> Hall]. simpl in *.
  rewrite kept_cons_good. f_equal. apply IH; [lia|lia|done].
Qed.

Lemma kept_all_bad (ls : list nat) : ∀ (pn : list Point) (pv : list bool),
  Forall (λ g, g = false) pv → kept (zip (zip ls pn) pv) = [].
Proof.
  induction ls as [|l ls IH]; intros [|xy pn] [|g pv] Hall; try done.
  apply Forall_cons in Hall as [-> Hall]. simpl.
  rewrite kept_cons_bad. by apply IH.
Qed.

(** X10: when every row fails the test, the pass leaves no live track and
    does not touch the store; when every row passes, the live list keeps
    the same references in the same order. *)
Theorem uniform_verdicts {image : Type} {cv : CV image}
    frame (self self' : Tracker image) img_old points_pld points_new
    point_valid :
  wf self → prev_gray self = Some img_old →
  latest_points self = Some points_pld →
  back_tracking img_old frame points_pld = (points_new, point_valid) →
  update_tracks frame self = Some self' →
  (Forall (λ g, g = false) point_valid →
   tracks self' = [] ∧ heap self' = heap self) ∧
  (Forall (λ g, g = true) point_valid → tracks self' = tracks self).
Proof.
  intros Hwf Hprev Hpld Hbt Hrun.
  destruct (update_tracks_inv _ _ _ _ _ _ _ Hwf Hprev Hpld Hbt Hrun)
    as (Htr & _ & _ & _ & _ & Hlen & _ & _ & Hrest).
  split.
  - intros Hall. rewrite (kept_all_bad _ _ _ Hall) in Htr.
    split; [done|]. apply list_eq. intros l. apply Hrest.
    rewrite Htr. apply not_elem_of_nil.
  - intros Hall. rewrite Htr.
    pose proof (update_tracks_nonempty _ _ _ _ Hrun Hpld) as Hne.
    destruct (back_tracking_length _ _ _ _ _ Hne Hbt) as [Hlen1 Hlen2].
    pose proof (latest_points_length self points_pld Hpld).
    apply kept_all_good; [congruence|congruence|done].
Qed.

Lemma uniform_verdicts_witness :
  let self := Toy.after true (Toy.panning 9) in
  let self' := Toy.extended true (Toy.frame [] 10 []) self in
  (Forall (λ g, g = false) [true] →
   tracks self' = [] ∧ heap self' = heap self) ∧
  (Forall (λ g, g = true) [true] → tracks self' = tracks self).
Proof.
  apply (uniform_verdicts (cv := Toy.cv true) (Toy.frame [] 10 [])
           (Toy.after true (Toy.panning 9))
           (Toy.extended true (Toy.frame [] 10 [])
              (Toy.after true (Toy.panning 9)))
           (Toy.frame [] 9 []) [Toy.pt 19 10] [Toy.pt 20 10] [true]).
  - apply (run_frames_wf (cv := Toy.cv true) (Toy.panning 9)). reflexivity.
  - reflexivity.
  - reflexivity.
  - reflexivity.
  - reflexivity.
Defined.

(** ** Retired tracks *)

Section Retired.

Context {image : Type} {cv : CV image}.
Implicit Types self : Tracker image.

Lemma update_tracks_retired frame self self' l :
  wf self → update_tracks frame self = Some self' → retired self l →
  retired self' l ∧ heap self' !! l = heap self !! l.
Proof.
  intros Hwf Hrun [Hlt Hout].
  destruct (prev_gray self) as [img_old|] eqn:Hprev;
    [|by unfold update_tracks in Hrun; rewrite Hprev in Hrun].
  destruct (wf_latest_points self Hwf) as [points_pld Hpld].
  destruct (back_tracking img_old frame points_pld)
    as [points_new point_valid] eqn:Hbt.
  destruct (update_tracks_inv _ _ _ _ _ _ _ Hwf Hprev Hpld Hbt Hrun)
    as (Htr & _ & _ & _ & _ & Hlen & _ & _ & Hrest).
  assert (Hout' : l ∉ tracks self').
  { intros Hin. apply Hout. rewrite Htr in Hin.
    eapply elem_of_sublist; [done|].
    etrans; [apply kept_sublist|apply rows_sublist]. }
  split; [split; [by rewrite Hlen|done]|by apply Hrest].
Qed.

Lemma get_new_tracks_retired frame self self' l :
  get_new_tracks frame self = Some self' → retired self l →
  retired self' l ∧ heap self' !! l = heap self !! l.
Proof.
  intros Hrun [Hlt Hout].
  apply get_new_tracks_inv in Hrun as (newest & centres & _ & _ & Hcase).
  destruct (goodFeaturesToTrack _ _ _) as [pts|]; subst self'; [|done].
  destruct (foldl_seed pts self) as (Htr & Hh & _).
  unfold retired. rewrite Htr, Hh. split; [split|].
  - rewrite length_app. lia.
  - intros Hin. apply elem_of_app in Hin as [Hin|Hin]; [done|].
    apply elem_of_seq in Hin. lia.
  - by apply lookup_app_l.
Qed.

Lemma run_step_retired frame self self' l :
  stable self → run_step frame self = Some self' → retired self l →
  retired self' l ∧ heap self' !! l = heap self !! l.
Proof.
  intros Hst Hrun Hret. unfold run_step in Hrun.
  destruct (extend_stage (cvtColor frame) self) as [self1|] eqn:Hext;
    [|done]. simpl in Hrun.
  destruct (seed_stage (cvtColor frame) self1) as [self2|] eqn:Hseed;
    [|done]. injection Hrun as <-.
  assert (H1 : stable self1 ∧ retired self1 l ∧
               heap self1 !! l = heap self !! l).
  { unfold extend_stage in Hext. case_bool_decide.
    - destruct (update_tracks_stable _ _ _ Hst Hext) as [Hst1 _].
      destruct (update_tracks_retired _ _ _ l (proj1 Hst) Hext Hret). done.
    - by injection Hext as <-. }
  destruct H1 as (Hst1 & Hret1 & Hh1).
  assert (H2 : retired self2 l ∧ heap self2 !! l = heap self1 !! l).
  { unfold seed_stage in Hseed. case_bool_decide; [done|].
    case_bool_decide.
    - by apply (get_new_tracks_retired (cvtColor frame) self1).
    - by injection Hseed as <-. }
  destruct H2 as [Hret2 Hh2]. split; [exact Hret2|]. simpl. congruence.
Qed.

Lemma run_frames_retired frames :
  ∀ self self' l,
    stable self → ready self → run_frames frames self = Some self' →
    retired self l →
    retired self' l ∧ heap self' !! l = heap self !! l.
Proof.
  induction frames as [|frame frames IH]; intros self self' l Hst Hready Hrun Hret.
  - by injection Hrun as <-.
  - cbn [run_frames] in Hrun.
    destruct (run_step frame self) as [self1|] eqn:Hstep; [|done].
    simpl in Hrun.
    destruct (run_step_stable frame self self1 Hst Hstep)
      as (Hst1 & Hready1 & _).
    destruct (run_step_retired frame self self1 l Hst Hstep Hret)
      as [Hret1 Hh1].
    destruct (IH self1 self' l Hst1 Hready1 Hrun Hret1) as [Hret' Hh'].
    split; [done|congruence].
Qed.

End Retired.

(** X11: there is no reactivation.  Once a track object of a run is no
    longer referenced by [self.tracks], no later frame makes it live
    again, and the object keeps the points it had when it was dropped. *)
Theorem retired_tracks_stay_retired {image : Type} {cv : CV image}
    (before later : list image) (self self' : Tracker image) l :
  run_frames before init = Some self →
  run_frames later self = Some self' →
  (l < length (heap self))%nat → l ∉ tracks self →
  (l ∉ tracks self') ∧ heap self' !! l = heap self !! l.
Proof.
  intros Hbefore Hlater Hlt Hout.
  destruct (run_frames_stable before init self) as (Hst & Hready & _);
    [apply init_stable..|done|].
  destruct (run_frames_retired later self self' l Hst Hready Hlater)
    as [[_ Hout'] Hh]; [by split|done].
Qed.

Lemma retired_tracks_stay_retired_witness :
  let self := Toy.after true [Toy.two_corners; Toy.occluding] in
  let self' :=
    Toy.after true [Toy.two_corners; Toy.occluding;
                    Toy.frame [] 2 []; Toy.frame [] 3 []] in
  (1%nat ∉ tracks self') ∧ heap self' !! 1%nat = heap self !! 1%nat.
Proof.
  apply (retired_tracks_stay_retired (cv := Toy.cv true)
           [Toy.two_corners; Toy.occluding]
           [Toy.frame [] 2 []; Toy.frame [] 3 []]).
  - reflexivity.
  - reflexivity.
  - vm_compute. lia.
  - vm_compute. intros Hin. apply list_elem_of_singleton in Hin. discriminate.
Defined.

(** ** The loop of [run], reads and key codes *)

Section Loop.

Context {image : Type} {cv : CV image}.
Implicit Types self : Tracker image.

Lemma mapM_cons_eq {A B : Type} (f : A → option B) x l :
  mapM f (x :: l) = y ← f x; k ← mapM f l; Some (y :: k).
Proof. reflexivity. Qed.

Lemma run_cons read ch events self :
  run ((read, ch) :: events) self =
    match loop_pass read ch self with
    | None => None
    | Some (self', stop) =>
        if stop then Some (self', true) else run events self'
    end.
Proof. reflexivity. Qed.

End Loop.

(** X12: the frame during which ESC (key code 27) is read is still
    processed in full, and [run] returns without reading anything after
    it: the tracker it leaves is the one obtained from the frames up to
    and including that frame. *)
Theorem run_stops_at_first_escape {image : Type} {cv : CV image}
    (pre : list (option image * Z)) frame post (self : Tracker image) :
  Forall (λ e, e.2 ≠ 27) pre →
  run (pre ++ (Some frame, 27) :: post) self =
    frames ← mapM fst pre;
    self' ← run_frames (frames ++ [frame]) self;
    Some (self', true).
Proof.
  revert self. induction pre as [|[read ch] pre IH]; intros self Hkeys.
  - simpl. unfold loop_pass. simpl. by destruct (run_step frame self).
  - apply Forall_cons in Hkeys as [Hch Hkeys]. simpl in Hch.
    rewrite <- app_comm_cons, run_cons, mapM_cons_eq. unfold loop_pass.
    destruct read as [fr|]; simpl; [|done].
    destruct (run_step fr self) as [self1|] eqn:Hstep; simpl.
    + rewrite bool_decide_eq_false_2 by done. rewrite (IH self1 Hkeys).
      destruct (mapM fst pre) as [frames|]; simpl; [|done].
      by rewrite Hstep.
    + destruct (mapM fst pre) as [frames|]; simpl; [|done].
      by rewrite Hstep.
Qed.

Lemma run_stops_at_first_escape_witness :
  run (cv := Toy.cv true)
    ([(Some Toy.two_corners, 255)]
       ++ (Some Toy.occluding, 27) :: [(None, 0); (Some Toy.two_corners, 0)])
    init =
  frames ← mapM fst [(Some Toy.two_corners, 255)];
  self' ← run_frames (cv := Toy.cv true) (frames ++ [Toy.occluding]) init;
  Some (self', true).
Proof.
  apply (run_stops_at_first_escape (cv := Toy.cv true)
           [(Some Toy.two_corners, 255)] Toy.occluding).
  apply Forall_cons. split; [simpl; lia|apply Forall_nil_2].
Defined.

(** X13: when a camera read fails before ESC has been pressed, for
    instance at the end of a video file, the colour conversion raises and
    [run] is left by the exception, whatever would follow. *)
Theorem failed_read_aborts_run {image : Type} {cv : CV image}
    (pre : list (option image * Z)) ch post (self : Tracker image) :
  Forall (λ e, e.2 ≠ 27) pre →
  run (pre ++ (None, ch) :: post) self = None.
Proof.
  revert self. induction pre as [|[read ch'] pre IH]; intros self Hkeys;
    [done|].
  apply Forall_cons in Hkeys as [Hch Hkeys]. simpl in Hch.
  rewrite <- app_comm_cons, run_cons. unfold loop_pass.
  destruct read as [fr|]; simpl; [|done].
  destruct (run_step fr self) as [self1|]; simpl; [|done].
  rewrite bool_decide_eq_false_2 by done. by apply IH.
Qed.

Lemma failed_read_aborts_run_witness :
  run (cv := Toy.cv true)
    ([(Some Toy.two_corners, 255); (Some Toy.occluding, 255)]
       ++ (None, 27) :: [(Some Toy.two_corners, 0)])
    init = None.
Proof.
  apply (failed_read_aborts_run (cv := Toy.cv true)
           [(Some Toy.two_corners, 255); (Some Toy.occluding, 255)]).
  repeat (apply Forall_cons; split; [simpl; lia|]). apply Forall_nil_2.
Defined.
